(** * Link validation of the Engineering Codex: scripts/validate-links.py

    A shallow embedding of the script's functions [slugify_heading],
    [extract_anchors], [validate_file] and [main], the properties its
    specification states about them, and further properties of the code.

    Modelling choices.
    - A Python [str] is a [list ascii]; a character stands for the Unicode
      code point of the same number, so the model covers the code points
      U+0000 to U+00FF.  The classes [isspace], [isword] and the case map
      [lower_char] follow CPython's tables on that range.
    - The [re] module is embedded as a small backtracking matcher over the
      constructs the script's patterns use: classes, greedy and lazy
      repetition of a class, groups, and the anchors of [re.MULTILINE].
    - The file system is a tree of directories and files without symbolic
      links; a file is readable text or not readable.  A path is the list of
      its components from the root; the paths handed to the functions hold
      no [.] or [..].  The calls of [pathlib] are modelled for the paths the
      operating system takes, [os_path]: no U+0000 in a name, no name over
      255 bytes, no path over 4095.
    - A Python [set] of strings is a [gset]; the dictionary of an issue is
      a record.
    - An exception that leaves a function is a result [Raise] of type
      [exc]; an exception the script catches is modelled where it is
      caught.
    - [Path.rglob] walks the tree as pathlib does and lists directories as
      well as files; [sorted] is a merge sort by [Path.__lt__], a total
      order, so that every sort gives the same list.  A run of [main] ends
      with the text it has printed and its exit status, or with the
      exception that escapes. *)

From Stdlib Require Import Ascii String NArith DecimalString.
From stdpp Require Import base list gmap sets strings sorting.

Local Open Scope list_scope.

(** ** Characters and strings *)

Definition str := list ascii.

(** String literals of the source. *)
Definition lit (s : string) : str := list_ascii_of_string s.

Definition code (c : ascii) : N := N_of_ascii c.

Definition in_range (lo hi : N) (c : ascii) : bool :=
  (lo <=? code c)%N && (code c <=? hi)%N.

(** [str.isspace] and the class [\s] of a [str] pattern. *)
Definition isspace (c : ascii) : bool :=
  in_range 9 13 c || in_range 28 32 c || (code c =? 133)%N || (code c =? 160)%N.

(** [str.isalnum] on one character. *)
Definition isalnum (c : ascii) : bool :=
  in_range 48 57 c || in_range 65 90 c || in_range 97 122 c
  || (code c =? 170)%N || in_range 178 179 c || (code c =? 181)%N
  || in_range 185 186 c || in_range 188 190 c
  || in_range 192 214 c || in_range 216 246 c || in_range 248 255 c.

(** The class [\w]: alphanumeric or underscore. *)
Definition isword (c : ascii) : bool := isalnum c || (code c =? 95)%N.

Definition isupper (c : ascii) : bool :=
  in_range 65 90 c || in_range 192 214 c || in_range 216 222 c.

Definition lower_char (c : ascii) : ascii :=
  if isupper c then ascii_of_N (code c + 32) else c.

(** [str.lower] *)
Definition lower (s : str) : str := map lower_char s.

Definition newline : ascii := "010"%char.
Definition hyphen : ascii := "-"%char.

Definition is_char (a : ascii) (c : ascii) : bool := Ascii.eqb a c.
Definition not_char (a : ascii) (c : ascii) : bool := negb (Ascii.eqb a c).

(** The pattern [.] without [re.DOTALL]. *)
Definition dot (c : ascii) : bool := not_char newline c.

(** [s.lstrip], [s.rstrip] and [s.strip] for a class of characters. *)
Fixpoint lstrip (p : ascii -> bool) (s : str) : str :=
  match s with
  | c :: s' => if p c then lstrip p s' else s
  | [] => []
  end.

Definition rstrip (p : ascii -> bool) (s : str) : str :=
  rev (lstrip p (rev s)).

Definition strip (p : ascii -> bool) (s : str) : str :=
  rstrip p (lstrip p s).

(** [s.startswith(prefix)] *)
Fixpoint startswith (pre s : str) : bool :=
  match pre, s with
  | [], _ => true
  | a :: pre', c :: s' => Ascii.eqb a c && startswith pre' s'
  | _ :: _, [] => false
  end.

(** [s.endswith(suffix)] *)
Definition endswith (suf s : str) : bool := startswith (rev suf) (rev s).

(** [needle in s] for strings: a substring test. *)
Fixpoint contains (s needle : str) : bool :=
  startswith needle s ||
  match s with
  | [] => false
  | _ :: s' => contains s' needle
  end.

(** [s.split(sep)] for a one-character separator. *)
Fixpoint split_on (sep : ascii) (s : str) : list str :=
  match s with
  | [] => [[]]
  | c :: s' =>
      if Ascii.eqb sep c then [] :: split_on sep s'
      else match split_on sep s' with
           | w :: ws => (c :: w) :: ws
           | [] => [[c]]
           end
  end.

(** [sep.join(parts)] *)
Fixpoint join (sep : str) (parts : list str) : str :=
  match parts with
  | [] => []
  | [w] => w
  | w :: ws => w ++ sep ++ join sep ws
  end.

(** ** Regular expressions

    A pattern is a sequence of nodes.  Repetition applies to one-character
    classes only, which is all the script's patterns need. *)

Inductive node : Type :=
| Chr (p : ascii -> bool)
| Rep (p : ascii -> bool) (lo : nat) (hi : option nat) (greedy : bool)
| Open (g : nat)
| Close (g : nat)
| Bol
| Eol.

Definition regex := list node.

(** Offsets, from the start of the match, at which groups opened and closed. *)
Record captures := Captures { opened : list (nat * nat); closed : list (nat * nat) }.

Definition no_captures : captures := Captures [] [].

Definition mark_open (g pos : nat) (cs : captures) : captures :=
  Captures ((g, pos) :: opened cs) (closed cs).

Definition mark_close (g pos : nat) (cs : captures) : captures :=
  Captures (opened cs) ((g, pos) :: closed cs).

Fixpoint assoc (g : nat) (l : list (nat * nat)) : option nat :=
  match l with
  | [] => None
  | (g', v) :: l' => if Nat.eqb g g' then Some v else assoc g l'
  end.

Definition has_room (hi : option nat) : bool :=
  match hi with
  | None => true
  | Some 0 => false
  | Some (S _) => true
  end.

Definition less_room (hi : option nat) : option nat :=
  match hi with
  | None => None
  | Some n => Some (pred n)
  end.

Definition cont := option ascii -> str -> nat -> captures -> option (nat * captures).

(** [^] and [$] under [re.MULTILINE]. *)
Definition at_bol (prev : option ascii) : bool :=
  match prev with
  | None => true
  | Some c => Ascii.eqb c newline
  end.

Definition at_eol (s : str) : bool :=
  match s with
  | [] => true
  | c :: _ => Ascii.eqb c newline
  end.

(** Repetition of a class between [lo] and [hi] times, then the rest of the
    pattern [k].  A greedy repetition tries one more character first and
    falls back to [k]; a lazy one tries [k] first. *)
Fixpoint rep (p : ascii -> bool) (greedy : bool) (k : cont)
    (lo : nat) (hi : option nat)
    (prev : option ascii) (s : str) (pos : nat) (cs : captures)
    {struct s} : option (nat * captures) :=
  match s with
  | [] => if Nat.eqb lo 0 then k prev [] pos cs else None
  | c :: s' =>
      if greedy then
        match (if p c && has_room hi
               then rep p greedy k (pred lo) (less_room hi) (Some c) s' (S pos) cs
               else None) with
        | Some r => Some r
        | None => if Nat.eqb lo 0 then k prev s pos cs else None
        end
      else
        match (if Nat.eqb lo 0 then k prev s pos cs else None) with
        | Some r => Some r
        | None =>
            if p c && has_room hi
            then rep p greedy k (pred lo) (less_room hi) (Some c) s' (S pos) cs
            else None
        end
  end.

(** Match a pattern at the current position; [prev] is the character before
    it, [pos] the number of characters consumed so far. *)
Fixpoint match_here (re : regex) : cont :=
  fun prev s pos cs =>
  match re with
  | [] => Some (pos, cs)
  | Chr p :: re' =>
      match s with
      | c :: s' => if p c then match_here re' (Some c) s' (S pos) cs else None
      | [] => None
      end
  | Rep p lo hi greedy :: re' => rep p greedy (match_here re') lo hi prev s pos cs
  | Open g :: re' => match_here re' prev s pos (mark_open g pos cs)
  | Close g :: re' => match_here re' prev s pos (mark_close g pos cs)
  | Bol :: re' => if at_bol prev then match_here re' prev s pos cs else None
  | Eol :: re' => if at_eol s then match_here re' prev s pos cs else None
  end.

(** A match object: the text from the start of the match on, its length and
    its group offsets. *)
Record rmatch := RMatch { m_text : str; m_len : nat; m_caps : captures }.

(** [m.group(g)] *)
Definition group (m : rmatch) (g : nat) : str :=
  match assoc g (opened (m_caps m)), assoc g (closed (m_caps m)) with
  | Some a, Some b => take (b - a) (drop a (m_text m))
  | _, _ => []
  end.

(** The scan shared by [finditer] and [sub]: the subject cut into unmatched
    characters and matches, leftmost match first, matches not overlapping.
    [skip] counts the characters still covered by the last match.  Every
    pattern of the script consumes at least one character, so the rules of
    [re] for empty matches never apply; an empty match is passed over. *)
Inductive piece : Type :=
| Keep (c : ascii)
| Hit (m : rmatch).

Fixpoint pieces (re : regex) (prev : option ascii) (s : str) (skip : nat) : list piece :=
  match s with
  | [] => []
  | c :: s' =>
      match skip with
      | S n => pieces re (Some c) s' n
      | 0 =>
          match match_here re prev s 0 no_captures with
          | Some (S n, cs) => Hit (RMatch s (S n) cs) :: pieces re (Some c) s' n
          | _ => Keep c :: pieces re (Some c) s' 0
          end
      end
  end.

(** [pattern.finditer(s)] *)
Definition finditer (re : regex) (s : str) : list rmatch :=
  omap (fun pc => match pc with Hit m => Some m | Keep _ => None end)
       (pieces re None s 0).

(** Replacement templates: literal text and group references. *)
Inductive titem : Type :=
| TLit (s : str)
| TGroup (g : nat).

Definition expand (tpl : list titem) (m : rmatch) : str :=
  flat_map (fun t => match t with TLit s => s | TGroup g => group m g end) tpl.

(** [re.sub(pattern, repl, s)] *)
Definition sub (re : regex) (tpl : list titem) (s : str) : str :=
  flat_map (fun pc => match pc with Keep c => [c] | Hit m => expand tpl m end)
           (pieces re None s 0).

(** ** The patterns of the script *)

Definition plus (p : ascii -> bool) : node := Rep p 1 None true.
Definition plus_lazy (p : ascii -> bool) : node := Rep p 1 None false.
Definition star (p : ascii -> bool) : node := Rep p 0 None true.

(** LINK_PATTERN, written with re.VERBOSE spacing:  \[ ( [^\]]* ) \] \( ( [^)]+ ) \)  *)
Definition LINK_PATTERN : regex :=
  [ Chr (is_char "[") ; Open 1 ; star (not_char "]") ; Close 1 ; Chr (is_char "]") ;
    Chr (is_char "(") ; Open 2 ; plus (not_char ")") ; Close 2 ; Chr (is_char ")") ].

(** HEADING_PATTERN, with re.MULTILINE:  ^ #{1,6} \s+ ( .+ ) $  *)
Definition HEADING_PATTERN : regex :=
  [ Bol ; Rep (is_char "#") 1 (Some 6) true ; plus isspace ;
    Open 1 ; plus dot ; Close 1 ; Eol ].

(** Bold spans:  \*\* ( .+? ) \*\*  *)
Definition BOLD : regex :=
  [ Chr (is_char "*") ; Chr (is_char "*") ; Open 1 ; plus_lazy dot ; Close 1 ;
    Chr (is_char "*") ; Chr (is_char "*") ].

(** Italic spans:  \* ( .+? ) \*  *)
Definition ITALIC : regex :=
  [ Chr (is_char "*") ; Open 1 ; plus_lazy dot ; Close 1 ; Chr (is_char "*") ].

(** Inline code spans: a backtick, ( .+? ), a backtick. *)
Definition CODE : regex :=
  [ Chr (is_char "`") ; Open 1 ; plus_lazy dot ; Close 1 ; Chr (is_char "`") ].

(** Inline links:  \[ ( [^\]]+ ) \] \( [^)]+ \)  *)
Definition INLINE_LINK : regex :=
  [ Chr (is_char "[") ; Open 1 ; plus (not_char "]") ; Close 1 ; Chr (is_char "]") ;
    Chr (is_char "(") ; plus (not_char ")") ; Chr (is_char ")") ].

(** The class  [^\w\s-]  *)
Definition not_slug_class (c : ascii) : bool :=
  negb (isword c || isspace c || is_char hyphen c).

Definition PUNCT : regex := [ Chr not_slug_class ].

(** Runs of white space:  [\s]+  *)
Definition SPACES : regex := [ plus isspace ].

(** ** slugify_heading *)

Definition slugify_heading (heading : str) : str :=
  let heading := strip isspace heading in
  let heading := sub BOLD [TGroup 1] heading in
  let heading := sub ITALIC [TGroup 1] heading in
  let heading := sub CODE [TGroup 1] heading in
  let heading := sub INLINE_LINK [TGroup 1] heading in
  let heading := lower heading in
  let heading := sub PUNCT [] heading in
  let heading := sub SPACES [TLit [hyphen]] heading in
  let heading := strip (is_char hyphen) heading in
  heading.

(** ** extract_anchors and the file system *)

(** Exceptions that the functions below let escape. *)
Inductive exn : Type :=
| ValueError
| FileNotFoundError
| NotADirectoryError.

Inductive exc (A : Type) : Type :=
| Ok (a : A)
| Raise (e : exn).
Arguments Ok {A} a.
Arguments Raise {A} e.

Definition bind {A B : Type} (x : exc A) (f : A -> exc B) : exc B :=
  match x with
  | Ok a => f a
  | Raise e => Raise e
  end.

Notation "x <- e1 ;; e2" := (bind e1 (fun x => e2))
  (at level 100, e1 at next level, right associativity).

(** A directory entry.  The content of a file is what [read_text] with
    [encoding='utf-8'] returns for it, or [None] when reading raises
    [OSError] or [UnicodeDecodeError]. *)
#[warnings="-register-all"]
Inductive entry : Type :=
| File (content : option str)
| Dir (children : list (str * entry)).

(** An absolute path, as its components below the root. *)
Definition path := list str.

Fixpoint find_child (name : str) (children : list (str * entry)) : option entry :=
  match children with
  | [] => None
  | (n, e) :: rest => if bool_decide (n = name) then Some e else find_child name rest
  end.

Fixpoint lookup_path (fs : entry) (p : path) : option entry :=
  match p with
  | [] => Some fs
  | name :: p' =>
      match fs with
      | Dir children =>
          match find_child name children with
          | Some e => lookup_path e p'
          | None => None
          end
      | File _ => None
      end
  end.

(** [Path.exists], for a path the operating system takes ([os_path]
    below); on a name of more than 255 bytes the call raises [OSError]. *)
Definition exists_ (fs : entry) (p : path) : bool :=
  match lookup_path fs p with
  | Some _ => true
  | None => false
  end.

(** [Path.is_file] *)
Definition is_file (fs : entry) (p : path) : bool :=
  match lookup_path fs p with
  | Some (File _) => true
  | _ => false
  end.

(** [Path.is_dir] *)
Definition is_dir (fs : entry) (p : path) : bool :=
  match lookup_path fs p with
  | Some (Dir _) => true
  | _ => false
  end.

(** [Path.read_text(encoding='utf-8')]; [None] stands for the exceptions
    [OSError] and [UnicodeDecodeError], which every caller catches.  On a
    path with U+0000 in a name the call raises [ValueError], which no
    caller catches; the model is for the other paths ([nul_free] below). *)
Definition read_text (fs : entry) (p : path) : option str :=
  match lookup_path fs p with
  | Some (File (Some text)) => Some text
  | _ => None
  end.

(** The names of [Path.iterdir], in listing order. *)
Definition iterdir (fs : entry) (p : path) : exc (list str) :=
  match lookup_path fs p with
  | Some (Dir children) => Ok (map fst children)
  | Some (File _) => Raise NotADirectoryError
  | None => Raise FileNotFoundError
  end.

(** [Path.parent] and [Path.name] *)
Definition parent (p : path) : path := removelast p.
Definition name (p : path) : str := List.last p [].

(** The components of a path string: empty components and [.] are dropped
    when a path object is built, [..] is kept. *)
Definition parts (s : str) : list str :=
  filter (fun w => w <> [] /\ w <> lit ".") (split_on "/" s).

(** [base / s] *)
Definition joinpath (base : path) (s : str) : path :=
  if startswith (lit "/") s then parts s else base ++ parts s.

(** [Path.resolve]: without symbolic links, [..] removes the component
    before it and is dropped at the root.  On a path with U+0000 in a name
    the call raises [ValueError]; the model is for the other paths. *)
Definition resolve (p : path) : path :=
  foldl (fun acc w => if bool_decide (w = lit "..") then removelast acc else acc ++ [w]) [] p.

(** [p.relative_to(base)]; raises [ValueError] unless [base] is a prefix. *)
Fixpoint relative_to (p base : path) : exc path :=
  match base, p with
  | [], _ => Ok p
  | b :: base', c :: p' => if bool_decide (b = c) then relative_to p' base' else Raise ValueError
  | _ :: _, [] => Raise ValueError
  end.

(** [str] of a relative path. *)
Definition str_of_rel (p : path) : str :=
  match p with
  | [] => lit "."
  | _ => join (lit "/") p
  end.

(** The headings of a text: group 1 of every match of HEADING_PATTERN. *)
Definition heading_texts (content : str) : list str :=
  map (fun m => group m 1) (finditer HEADING_PATTERN content).

(** The loop of [extract_anchors] over the matches. *)
Fixpoint add_anchors (ms : list rmatch) (anchors : gset str) : gset str :=
  match ms with
  | [] => anchors
  | m :: ms' =>
      let slug := slugify_heading (group m 1) in
      match slug with
      | [] => add_anchors ms' anchors
      | _ :: _ => add_anchors ms' ({[ slug ]} ∪ anchors)
      end
  end.

Definition extract_anchors (fs : entry) (filepath : path) : gset str :=
  match read_text fs filepath with
  | None => ∅
  | Some content => add_anchors (finditer HEADING_PATTERN content) ∅
  end.

(** ** validate_file *)

Record Issue := mkIssue { file : str; line : nat; link : str; issue : str }.

(** [link_target.split('#', 1)] when the target holds a [#]. *)
Fixpoint split_hash (s : str) : str * str :=
  match s with
  | [] => ([], [])
  | c :: s' =>
      if Ascii.eqb "#" c then ([], s')
      else let '(a, b) := split_hash s' in (c :: a, b)
  end.

(** [link_target.startswith(('http://', 'https://', 'mailto:'))] *)
Definition is_external (link_target : str) : bool :=
  startswith (lit "http://") link_target
  || startswith (lit "https://") link_target
  || startswith (lit "mailto:") link_target.

(** The file part and the anchor part of a target; the anchor part is
    [None] when the target holds no [#]. *)
Definition split_target (link_target : str) : str * option str :=
  if contains link_target (lit "#")
  then let '(a, b) := split_hash link_target in (a, Some b)
  else (link_target, None).

(** The truth value of [anchor_part]: set and not empty. *)
Definition truthy (a : option str) : bool :=
  match a with
  | Some (_ :: _) => true
  | _ => false
  end.

(** The loop over the siblings that looks for a suggestion. *)
Fixpoint suggest (name : str) (siblings : list str) : str :=
  match siblings with
  | [] => []
  | sib :: rest =>
      if contains sib name || contains name sib
      then lit " (did you mean `" ++ sib ++ lit "`?)"
      else suggest name rest
  end.

Section Resolver.

Variable fs : entry.
(** The module-level constant: the directory above the script's own. *)
Variable codex_root : path.

(** ['file': str(filepath.relative_to(codex_root))] and the other fields. *)
Definition new_issue (filepath : path) (line_num : nat) (link_target reason : str)
    : exc Issue :=
  rel <- relative_to filepath codex_root ;;
  Ok (mkIssue (str_of_rel rel) line_num link_target reason).

(** The body of the loop over the matches of one line, for the target
    of one match.  The calls of lines 90 and 92 are those of a target whose
    file part gives a path the operating system takes ([os_target] below). *)
Definition check_link (filepath : path) (line_num : nat) (link_target : str)
    (issues : list Issue) : exc (list Issue) :=
  if is_external link_target then Ok issues
  else if startswith (lit "#") link_target then
    let anchor := drop 1 link_target in
    let file_anchors := extract_anchors fs filepath in
    if bool_decide (anchor ∉ file_anchors) then
      i <- new_issue filepath line_num link_target (lit "Anchor not found in file") ;;
      Ok (issues ++ [i])
    else Ok issues
  else
    let '(file_part, anchor_part) := split_target link_target in
    let resolved := resolve (joinpath (parent filepath) file_part) in
    if negb (exists_ fs resolved) then
      suggestion <-
        (if exists_ fs (parent resolved)
         then siblings <- iterdir fs (parent resolved) ;;
              Ok (suggest (name resolved) siblings)
         else Ok []) ;;
      i <- new_issue filepath line_num link_target
             ((if endswith (lit "/") file_part then lit "Directory" else lit "File")
              ++ lit " not found" ++ suggestion) ;;
      Ok (issues ++ [i])
    else if truthy anchor_part && is_file fs resolved then
      let file_anchors := extract_anchors fs resolved in
      if bool_decide (default [] anchor_part ∉ file_anchors) then
        i <- new_issue filepath line_num link_target
               (lit "Anchor `#" ++ default [] anchor_part
                ++ lit "` not found in target file") ;;
        Ok (issues ++ [i])
      else Ok issues
    else Ok issues.

(** The loop over the matches of LINK_PATTERN on one line. *)
Fixpoint scan_matches (filepath : path) (line_num : nat) (ms : list rmatch)
    (issues : list Issue) : exc (list Issue) :=
  match ms with
  | [] => Ok issues
  | m :: ms' =>
      issues' <- check_link filepath line_num (group m 2) issues ;;
      scan_matches filepath line_num ms' issues'
  end.

(** A line whose stripped text starts with three backticks. *)
Definition is_fence (line : str) : bool :=
  startswith (lit "```") (strip isspace line).

(** The loop over the lines, numbered from [line_num] on. *)
Fixpoint scan_lines (filepath : path) (lines : list str) (line_num : nat)
    (issues : list Issue) : exc (list Issue) :=
  match lines with
  | [] => Ok issues
  | line :: rest =>
      if is_fence line then scan_lines filepath rest (S line_num) issues
      else
        issues' <- scan_matches filepath line_num (finditer LINK_PATTERN line) issues ;;
        scan_lines filepath rest (S line_num) issues'
  end.

Definition validate_file (filepath : path) (scan_root : path) : exc (list Issue) :=
  match read_text fs filepath with
  | None => Ok []
  | Some content => scan_lines filepath (split_on newline content) 1 []
  end.

End Resolver.

(** ** Definitions used to state the properties *)

(** The characters a slug is made of: word characters and hyphens that
    [str.lower] leaves alone. *)
Definition slug_char (c : ascii) : bool :=
  (isword c || is_char hyphen c) && Ascii.eqb (lower_char c) c.

(** The class of the first character of every match of a pattern, when the
    pattern fixes one. *)
Fixpoint first_class (re : regex) : option (ascii -> bool) :=
  match re with
  | Chr q :: _ => Some q
  | Rep q (S _) _ _ :: _ => Some q
  | Open _ :: re' => first_class re'
  | Close _ :: re' => first_class re'
  | Bol :: re' => first_class re'
  | _ => None
  end.

(** The length of the longest prefix made of characters of a class. *)
Fixpoint run (q : ascii -> bool) (s : str) : nat :=
  match s with
  | c :: s' => if q c then S (run q s') else 0
  | [] => 0
  end.

(** Step 8 of the slugifier in the words of the specification: every run
    of white space becomes one hyphen.  [in_run] tells that the character
    before was white space. *)
Fixpoint hyphenate (in_run : bool) (s : str) : str :=
  match s with
  | [] => []
  | c :: s' =>
      if isspace c
      then (if in_run then hyphenate true s' else hyphen :: hyphenate true s')
      else c :: hyphenate false s'
  end.

(** ** The slugifier in the words of the specification

    Steps 2 to 4: a span delimited by a marker on each side collapses to its
    inner text.  The inner text is the shortest one that is not empty, holds
    no line break and is followed by the marker. *)
Fixpoint span_body (marker s : str) : option (str * str) :=
  match s with
  | [] => None
  | c :: s' =>
      if dot c then
        if startswith marker s' then Some ([c], drop (length marker) s')
        else match span_body marker s' with
             | Some (inner, rest) => Some (c :: inner, rest)
             | None => None
             end
      else None
  end.

(** A span at the start of [s]: its inner text and what follows the span. *)
Definition span_at (marker s : str) : option (str * str) :=
  if startswith marker s then span_body marker (drop (length marker) s) else None.

(** The text before the first [a], when it is not empty, and what follows
    that [a]. *)
Definition up_to (a : ascii) (s : str) : option (str * str) :=
  match run (not_char a) s, drop (run (not_char a) s) s with
  | S n, _ :: rest => Some (take (S n) s, rest)
  | _, _ => None
  end.

(** Step 5: an inline reference construct at the start of [s], bracketed
    text then a target in parentheses: its text and what follows the
    construct. *)
Definition link_at (s : str) : option (str * str) :=
  match s with
  | c :: s1 =>
      if is_char "[" c then
        match up_to "]" s1 with
        | Some (text, c2 :: s2) =>
            if is_char "(" c2 then
              match up_to ")" s2 with
              | Some (_, rest) => Some (text, rest)
              | None => None
              end
            else None
        | _ => None
        end
      else None
  | [] => None
  end.

(** Collapsing every construct, from left to right: where one starts, it is
    replaced by its inner text and the scan goes on behind it.  [fuel] bounds
    the number of steps; the length of the string is enough. *)
Fixpoint collapse (construct : str -> option (str * str)) (fuel : nat) (s : str) : str :=
  match fuel with
  | 0 => s
  | S fuel' =>
      match construct s with
      | Some (inner, rest) => inner ++ collapse construct fuel' rest
      | None =>
          match s with
          | [] => []
          | c :: s' => c :: collapse construct fuel' s'
          end
      end
  end.

Definition collapse_all (construct : str -> option (str * str)) (s : str) : str :=
  collapse construct (length s) s.

(** The nine steps of section 4.1, in order. *)
Definition slugify_spec (heading : str) : str :=
  let s1 := strip isspace heading in
  let s2 := collapse_all (span_at (lit "**")) s1 in
  let s3 := collapse_all (span_at (lit "*")) s2 in
  let s4 := collapse_all (span_at (lit "`")) s3 in
  let s5 := collapse_all link_at s4 in
  let s6 := map lower_char s5 in
  let s7 := List.filter (fun c => isword c || isspace c || is_char hyphen c) s6 in
  let s8 := hyphenate false s7 in
  let s9 := strip (is_char hyphen) s8 in
  s9.

(** The pattern of the spans of a marker. *)
Definition literal (marker : str) : regex := map (fun a => Chr (is_char a)) marker.

Definition span_regex (marker : str) : regex :=
  literal marker ++ [Open 1; plus_lazy dot; Close 1] ++ literal marker.

(** The rest of the link pattern behind the bracketed text. *)
Definition link_tail : regex :=
  [ Close 1 ; Chr (is_char "]") ; Chr (is_char "(") ; plus (not_char ")") ;
    Chr (is_char ")") ].

(** A pattern without [^]. *)
Definition bol_free (re : regex) : bool :=
  forallb (fun n => match n with Bol => false | _ => true end) re.

(** A pattern matches where a construct starts, with the inner text in
    group 1 and up to the end of the construct. *)
Definition implements (re : regex) (construct : str -> option (str * str)) : Prop :=
  forall prev s,
  match construct s with
  | Some (inner, rest) =>
      exists n cs,
        match_here re prev s 0 no_captures = Some (S n, cs)
        /\ S n <= length s
        /\ group (RMatch s (S n) cs) 1 = inner
        /\ drop (S n) s = rest
  | None => match_here re prev s 0 no_captures = None
  end.

(** The text of a match list, under a replacement template. *)
Definition render (tpl : list titem) (ps : list piece) : str :=
  flat_map (fun pc => match pc with Keep c => [c] | Hit m => expand tpl m end) ps.

(** The headings of the file at a path; none when it cannot be read. *)
Definition headings (fs : entry) (filepath : path) : list str :=
  match read_text fs filepath with
  | Some content => heading_texts content
  | None => []
  end.

(** The references of a document in scan order: the targets found on the
    lines that are not fence markers, each with its line number. *)
Definition line_links (line_num : nat) (line : str) : list (nat * str) :=
  if is_fence line then []
  else map (fun m => (line_num, group m 2)) (finditer LINK_PATTERN line).

Fixpoint numbered_links (lines : list str) (line_num : nat) : list (nat * str) :=
  match lines with
  | [] => []
  | line :: rest => line_links line_num line ++ numbered_links rest (S line_num)
  end.

Definition doc_links (content : str) : list (nat * str) :=
  numbered_links (split_on newline content) 1.

(** The body of the resolver's loops run over a list of references. *)
Fixpoint scan_links (fs : entry) (codex_root filepath : path)
    (refs : list (nat * str)) (issues : list Issue) : exc (list Issue) :=
  match refs with
  | [] => Ok issues
  | (line_num, target) :: rest =>
      issues' <- check_link fs codex_root filepath line_num target issues ;;
      scan_links fs codex_root filepath rest issues'
  end.

(** The issues of a document around one reference: those collected before
    it, those of the reference itself, then those of the references after
    it, unless one of these raises. *)
Definition issues_around (fs : entry) (codex_root filepath : path)
    (acc here : list Issue) (after : list (nat * str)) : exc (list Issue) :=
  more <- scan_links fs codex_root filepath after [] ;;
  Ok (acc ++ here ++ more).

(** The resolver has read [content] from [filepath], has gone through the
    references [before] and collected [acc], and stands at the reference
    [target] of line [line_num], with [after] still to come. *)
Definition reaches (fs : entry) (codex_root filepath : path) (content : str)
    (before : list (nat * str)) (line_num : nat) (target : str)
    (after : list (nat * str)) (acc : list Issue) : Prop :=
  read_text fs filepath = Some content
  /\ doc_links content = before ++ (line_num, target) :: after
  /\ scan_links fs codex_root filepath before [] = Ok acc.

(** A reference that is neither external nor a same-document anchor. *)
Definition cross_document (target : str) : Prop :=
  is_external target = false /\ startswith (lit "#") target = false.

(** The names listed in a directory; none for anything else. *)
Definition siblings_of (fs : entry) (dir : path) : list str :=
  match lookup_path fs dir with
  | Some (Dir children) => map fst children
  | _ => []
  end.

(** The path a file-part resolves to from a document. *)
Definition target_of (filepath : path) (file_part : str) : path :=
  resolve (joinpath (parent filepath) file_part).

(** ** A sample tree

    [/repo] is the codex; its [docs] directory holds the document [a.md]
    with a given text, next to a readable file, an unreadable one and a
    directory. *)
Definition codex : path := [lit "repo"].
Definition docs : path := [lit "repo"; lit "docs"].
Definition a_md : path := [lit "repo"; lit "docs"; lit "a.md"].
Definition b_md : path := [lit "repo"; lit "docs"; lit "b.md"].
Definition bad_md : path := [lit "repo"; lit "docs"; lit "bad.md"].
Definition sub_dir : path := [lit "repo"; lit "docs"; lit "sub"].

Definition tree (text : str) : entry :=
  Dir [ (lit "repo",
         Dir [ (lit "README.md", File (Some (lit "# Codex")));
               (lit "docs",
                Dir [ (lit "a.md", File (Some text));
                      (lit "b.md", File (Some (lit "## Setup")));
                      (lit "bad.md", File None);
                      (lit "sub", Dir []) ]) ]) ].

(** Sample documents. *)
Definition doc_missing_anchor : str := lit "# Intro
[x](#missing-anchor) [y](#intro)".

Definition doc_empty_slug : str := lit "# !
[x](#)".

Definition doc_fenced : str := lit "```
[q](y.md)
```".

Definition doc_empty_anchor : str := lit "[x](b.md#)".

Definition doc_two_hashes : str := lit "[x](b.md#x#)".

Definition doc_anchor_links : str := lit "[w](b.md#nope) [v](b.md#setup) [s](sub/#setup)".

Definition doc_unreadable : str := lit "[u](bad.md#x)".

Definition doc_unchecked : str := lit "[r](sub#x) [u](bad.md#)".

Definition doc_through_file : str := lit "[t](b.md/c.md)".

Definition doc_missing_file : str := lit "[z](other.md) [d](nodir/) [m](b)".

(** More sample documents. *)
Definition doc_external : str :=
  lit "[s](http://nowhere.invalid/x.md) [t](https://nowhere.invalid) [m](mailto:a@b)".

Definition doc_plain_links : str := lit "[b](b.md) [s](sub/) [up](..)".

Definition doc_case : str := lit "# Intro
[y](#Intro) [z](#intro)".

(** The line and the target an Issue names. *)
Definition issue_ref (i : Issue) : nat * str := (line i, link i).

(** The references of the file at a path; none when it cannot be read. *)
Definition references (fs : entry) (filepath : path) : list (nat * str) :=
  match read_text fs filepath with
  | Some content => doc_links content
  | None => []
  end.

(** The reasons an Issue can carry, by the form of its target: a
    same-document anchor that is not found; a file part that does not exist,
    with or without a suggested sibling; an anchor part that is not found in
    the target file. *)
Definition reason_kind (target reason : str) : Prop :=
  (startswith (lit "#") target = true /\ reason = lit "Anchor not found in file")
  \/ (cross_document target
      /\ exists suggestion,
           reason = (if endswith (lit "/") (fst (split_target target))
                     then lit "Directory" else lit "File")
                    ++ lit " not found" ++ suggestion
           /\ (suggestion = lit ""
               \/ exists sib, suggestion = lit " (did you mean `" ++ sib ++ lit "`?)"))
  \/ (cross_document target
      /\ exists anchor,
           snd (split_target target) = Some anchor
           /\ anchor <> lit ""
           /\ reason = lit "Anchor `#" ++ anchor ++ lit "` not found in target file").

(** [needle] occurs in [s]. *)
Definition substring (needle s : str) : Prop := exists a b, s = a ++ needle ++ b.

(** A sibling that the suggestion loop accepts for a missing name. *)
Definition similar (nm sib : str) : Prop := substring nm sib \/ substring sib nm.

(** ** main *)

(** Python's [<] on sequences: the first position at which the two differ
    decides; a sequence is less than a longer one that starts with it. *)
Fixpoint lex_lt {A : Type} `{EqDecision A} (lt : A -> A -> bool) (l1 l2 : list A) : bool :=
  match l1, l2 with
  | _, [] => false
  | [], _ :: _ => true
  | x :: l1', y :: l2' => if bool_decide (x = y) then lex_lt lt l1' l2' else lt x y
  end.

(** Characters compare by code point, strings as sequences of characters. *)
Definition char_lt (a b : ascii) : bool := (code a <? code b)%N.
Definition str_lt : str -> str -> bool := lex_lt char_lt.

(** [Path.__lt__]: paths compare as the sequences of their parts. *)
Definition path_lt : path -> path -> bool := lex_lt str_lt.

(** The order [sorted] keeps two neighbours in: the second is not less than
    the first. *)
Definition path_le (p q : path) : Prop := path_lt q p = false.

#[global] Instance path_le_dec p q : Decision (path_le p q).
Proof. unfold path_le. apply _. Defined.

(** A name that [fnmatch] accepts for [*.md]. *)
Definition is_md (name : str) : bool := endswith (lit ".md") name.

(** [Path.rglob('*.md')] from the entry [e] at the path [here], in the order
    of the walk: the matching names of a directory, then what lies below
    each of its entries in turn.  The directory itself is never listed, and
    a regular file has nothing below it. *)
Fixpoint rglob_md (e : entry) (here : path) : list path :=
  match e with
  | File _ => []
  | Dir children =>
      map (fun c => here ++ [fst c]) (filter (fun c => is_md (fst c) = true) children)
      ++ (fix below (cs : list (str * entry)) : list path :=
            match cs with
            | [] => []
            | (n, c) :: rest => rglob_md c (here ++ [n]) ++ below rest
            end) children
  end.

(** [dir.rglob('*.md')]; nothing when [dir] does not exist. *)
Definition rglob (fs : entry) (dir : path) : list path :=
  match lookup_path fs dir with
  | Some e => rglob_md e dir
  | None => []
  end.

(** The files [main] goes through: the sorted result of [rglob] without the
    paths that have a part [.git]. *)
Definition md_files (fs : entry) (scan_dir : path) : list path :=
  let md_files := merge_sort path_le (rglob fs scan_dir) in
  filter (fun f => lit ".git" ∉ f) md_files.

(** [pattern.findall(s)] for a pattern with two groups. *)
Definition findall (re : regex) (s : str) : list (str * str) :=
  map (fun m => (group m 1, group m 2)) (finditer re s).

(** [str] of a number that is not negative. *)
Definition decimal (n : nat) : str :=
  lit (DecimalString.NilZero.string_of_uint (Nat.to_uint n)).

(** What [main] leaves behind when it ends through [sys.exit]: the text
    written to standard output and the exit status. *)
Record outcome := Exit { stdout : str; status : nat }.

(** [print(s)], on the text written so far. *)
Definition print (s : str) (out : str) : str := out ++ s ++ [newline].

(** The loop that prints the Issues. *)
Fixpoint print_issues (all_issues : list Issue) (out : str) : str :=
  match all_issues with
  | [] => out
  | i :: rest =>
      let out := print (lit "  " ++ file i ++ lit ":" ++ decimal (line i)) out in
      let out := print (lit "    Link: " ++ link i) out in
      let out := print (lit "    Issue: " ++ issue i) out in
      let out := print [] out in
      print_issues rest out
  end.

Section Main.

Variable fs : entry.
Variable codex_root : path.

(** The loop of [main] over the files. *)
Fixpoint scan_files (scan_dir : path) (files : list path)
    (all_issues : list Issue) (link_count : nat) : exc (list Issue * nat) :=
  match files with
  | [] => Ok (all_issues, link_count)
  | filepath :: rest =>
      match read_text fs filepath with
      | None => scan_files scan_dir rest all_issues link_count
      | Some content =>
          let links := findall LINK_PATTERN content in
          let internal_links := filter (fun l => is_external (snd l) = false) links in
          let link_count := link_count + length internal_links in
          issues <- validate_file fs codex_root filepath scan_dir ;;
          scan_files scan_dir rest (all_issues ++ issues) link_count
      end
  end.

(** [main] from the listing of the files on. *)
Definition scan (scan_dir : path) : exc outcome :=
  let md_files := md_files fs scan_dir in
  found <- scan_files scan_dir md_files [] 0 ;;
  let '(all_issues, link_count) := found in
  let out := print (newline :: lit "Link Validation Report") [] in
  let out := print (replicate 50 "="%char) out in
  let out := print (lit "Files scanned: " ++ decimal (length md_files)) out in
  let out := print (lit "Internal links checked: " ++ decimal link_count) out in
  let out := print (lit "Broken links: " ++ decimal (length all_issues)) out in
  match all_issues with
  | [] =>
      let out := print (newline :: lit "All links valid.") out in
      Ok (Exit out 0)
  | _ :: _ =>
      let out := print (newline :: lit "Broken Links:") out in
      let out := print (replicate 50 hyphen) out in
      let out := print_issues all_issues out in
      Ok (Exit out 1)
  end.

(** [main], for the argument list [argv] of the process.  An exception that
    escapes ends the run before anything is printed. *)
Definition main (argv : list str) : exc outcome :=
  match argv with
  | _ :: arg :: _ =>
      let scan_dir := joinpath codex_root arg in
      if negb (exists_ fs scan_dir)
      then Ok (Exit (print (lit "Error: Directory '" ++ arg ++ lit "' not found") []) 1)
      else scan scan_dir
  | _ => scan codex_root
  end.

End Main.

(** The directory a run scans. *)
Definition scan_dir_of (codex_root : path) (argv : list str) : path :=
  match argv with
  | _ :: arg :: _ => joinpath codex_root arg
  | _ => codex_root
  end.

(** The run was given a directory that does not exist. *)
Definition missing_directory (fs : entry) (codex_root : path) (argv : list str) : Prop :=
  exists arg, argv !! 1 = Some arg /\ exists_ fs (joinpath codex_root arg) = false.

(** The argument of the run, if there is one, names its directory without
    [..]; the model of the file system covers such paths. *)
Definition plain_argument (argv : list str) : Prop :=
  forall arg, argv !! 1 = Some arg -> lit ".." ∉ parts arg.

(** The argument of the run, if there is one, is a relative path. *)
Definition relative_argument (argv : list str) : Prop :=
  forall arg, argv !! 1 = Some arg -> startswith (lit "/") arg = false.

(** In a well-formed tree a directory lists a name once. *)
Fixpoint unique_names (e : entry) : bool :=
  match e with
  | File _ => true
  | Dir children =>
      bool_decide (NoDup (map fst children))
      && (fix all (cs : list (str * entry)) : bool :=
            match cs with
            | [] => true
            | (_, c) :: rest => unique_names c && all rest
            end) children
  end.

(** The lines printed for one Issue. *)
Definition issue_lines (i : Issue) : str :=
  lit "  " ++ file i ++ lit ":" ++ decimal (line i) ++ [newline]
  ++ lit "    Link: " ++ link i ++ [newline]
  ++ lit "    Issue: " ++ issue i ++ [newline]
  ++ [newline].

(** A tree with a repository directory, a directory named like a markdown
    file, a name in upper case and a hidden file. *)
Definition tree_git (text : str) : entry :=
  Dir [ (lit "repo",
         Dir [ (lit ".git", Dir [ (lit "HEAD.md", File (Some (lit "[h](gone.md)"))) ]);
               (lit "z.md", Dir [ (lit ".x.md", File (Some text)) ]);
               (lit "NOTES.MD", File (Some (lit "[n](gone.md)")));
               (lit "a.md", File (Some (lit "[b](z.md) [c](http://nowhere.invalid)")));
               (lit "bad.md", File None) ]) ].


(** What follows the text of a reference in LINK_PATTERN, and what follows
    its target. *)
Definition target_tail : regex :=
  [ Close 1 ; Chr (is_char "]") ; Chr (is_char "(") ; Open 2 ; plus (not_char ")") ;
    Close 2 ; Chr (is_char ")") ].

Definition target_end : regex := [ Close 2 ; Chr (is_char ")") ].

(** A target as LINK_PATTERN captures it: not empty, without a closing
    parenthesis and without a line break. *)
Definition well_formed_target (t : str) : Prop :=
  t <> [] /\ (")"%char ∉ t) /\ newline ∉ t.


(** ** Paths the operating system takes

    The path functions above stand for the calls of [pathlib] on paths
    that the operating system takes.  On others the calls raise: with
    the character U+0000 in a name, [Path.resolve] and [Path.read_text]
    raise [ValueError]; with a name of more than 255 bytes, or a path of
    more than 4095, [Path.exists] raises [OSError].  Where a property
    says that a call returns, it is stated for paths of this kind. *)
Definition nul : ascii := "000"%char.

(** The number of bytes of a string in UTF-8, the encoding of file names. *)
Definition utf8_length (s : str) : nat :=
  list_sum (map (fun c => if (code c <? 128)%N then 1 else 2) s).

(** No name of the path holds U+0000. *)
Definition nul_free (p : path) : bool :=
  forallb (fun w => negb (existsb (Ascii.eqb nul) w)) p.

(** The length in bytes of an absolute path written as a string. *)
Definition path_length (p : path) : nat :=
  list_sum (map (fun w => S (utf8_length w)) p).

Definition os_path (p : path) : bool :=
  nul_free p && forallb (fun w => utf8_length w <=? 255) p && (path_length p <=? 4095).

(** The file part of a target, joined to the directory of the document,
    is a path the operating system takes; this is the path that line 90
    resolves. *)
Definition os_target (filepath : path) (target : str) : bool :=
  os_path (joinpath (parent filepath) (fst (split_target target))).


(** Case analysis over the 256 characters. *)
Ltac each_ascii c :=
  destruct c as [[] [] [] [] [] [] [] []]; vm_compute; try reflexivity; try discriminate.

(** * Properties *)

(** ** The matcher on samples *)

Example heading_samples :
  heading_texts (lit "# a
####### x
 #b
## c d 
#

foo") = [lit "a"; lit "c d "; lit "foo"].
Proof. vm_compute. reflexivity. Qed.

Example italic_sample : sub ITALIC [TGroup 1] (lit "**a*") = lit "*a".
Proof. vm_compute. reflexivity. Qed.

Example bold_sample : sub BOLD [TGroup 1] (lit "**a**b** ****") = lit "ab **".
Proof. vm_compute. reflexivity. Qed.

Example link_samples :
  map (fun m => group m 2) (finditer LINK_PATTERN (lit "[a](b)[](c d) [e]() [f](g"))
  = [lit "b"; lit "c d"].
Proof. vm_compute. reflexivity. Qed.

Example inline_link_sample :
  sub INLINE_LINK [TGroup 1] (lit "[a]**(b**) [t](u)") = lit "[a]**(b**) t".
Proof. vm_compute. reflexivity. Qed.

(** ** Characters *)

Lemma lower_char_idem c : lower_char (lower_char c) = lower_char c.
Proof. each_ascii c. Qed.

Lemma slug_char_lower c : slug_char c = true -> lower_char c = c.
Proof. each_ascii c. Qed.

Lemma slug_char_not_space c : slug_char c = true -> isspace c = false.
Proof. each_ascii c. Qed.

Lemma slug_char_not_punct c : slug_char c = true -> not_slug_class c = false.
Proof. each_ascii c. Qed.

Lemma slug_char_not_star c : slug_char c = true -> is_char "*" c = false.
Proof. each_ascii c. Qed.

Lemma slug_char_not_tick c : slug_char c = true -> is_char "`" c = false.
Proof. each_ascii c. Qed.

Lemma slug_char_not_bracket c : slug_char c = true -> is_char "[" c = false.
Proof. each_ascii c. Qed.

Lemma slug_char_intro c :
  lower_char c = c -> not_slug_class c = false -> isspace c = false -> slug_char c = true.
Proof. each_ascii c. Qed.

Lemma slug_char_hyphen : slug_char hyphen = true.
Proof. reflexivity. Qed.

(** ** Stripping *)

Lemma lstrip_head q s :
  match lstrip q s with [] => True | c :: _ => q c = false end.
Proof.
  induction s as [|c s IH]; simpl; [exact I|].
  destruct (q c) eqn:E; [exact IH | exact E].
Qed.

Lemma lstrip_Forall (P : ascii -> Prop) q s : Forall P s -> Forall P (lstrip q s).
Proof.
  induction 1 as [|c s Hc Hs IH]; simpl; [constructor|].
  destruct (q c); [exact IH | constructor; assumption].
Qed.

Lemma lstrip_snoc q s c : q c = false -> lstrip q (s ++ [c]) = lstrip q s ++ [c].
Proof.
  intros Hc. induction s as [|a s IH]; simpl.
  - rewrite Hc. reflexivity.
  - destruct (q a); [exact IH | reflexivity].
Qed.

Lemma lstrip_idem q s : lstrip q (lstrip q s) = lstrip q s.
Proof.
  pose proof (lstrip_head q s) as H.
  destruct (lstrip q s) as [|c t]; simpl; [reflexivity|].
  rewrite H. reflexivity.
Qed.

Lemma rstrip_cons q c s : q c = false -> rstrip q (c :: s) = c :: rstrip q s.
Proof.
  intros Hc. unfold rstrip. simpl.
  rewrite lstrip_snoc by exact Hc.
  rewrite rev_app_distr. reflexivity.
Qed.

Lemma rstrip_idem q s : rstrip q (rstrip q s) = rstrip q s.
Proof.
  unfold rstrip. rewrite rev_involutive, lstrip_idem. reflexivity.
Qed.

Lemma rstrip_Forall (P : ascii -> Prop) q s : Forall P s -> Forall P (rstrip q s).
Proof.
  intros H. unfold rstrip.
  apply Forall_rev, lstrip_Forall, Forall_rev, H.
Qed.

Lemma strip_Forall (P : ascii -> Prop) q s : Forall P s -> Forall P (strip q s).
Proof. intros H. apply rstrip_Forall, lstrip_Forall, H. Qed.

(** Stripping is idempotent. *)
Lemma strip_idem q s : strip q (strip q s) = strip q s.
Proof.
  unfold strip.
  pose proof (lstrip_head q s) as H.
  destruct (lstrip q s) as [|c t]; [reflexivity|].
  rewrite (rstrip_cons q c t H). simpl. rewrite H.
  rewrite (rstrip_cons q c _ H), rstrip_idem. reflexivity.
Qed.

Lemma lstrip_none q s : Forall (fun c => q c = false) s -> lstrip q s = s.
Proof. destruct 1 as [|c s Hc Hs]; simpl; [reflexivity|]. rewrite Hc. reflexivity. Qed.

Lemma rstrip_none q s : Forall (fun c => q c = false) s -> rstrip q s = s.
Proof.
  intros H. unfold rstrip. rewrite lstrip_none by (apply Forall_rev, H).
  apply rev_involutive.
Qed.

(** A string without characters of the class is left as it is. *)
Lemma strip_none q s : Forall (fun c => q c = false) s -> strip q s = s.
Proof. intros H. unfold strip. rewrite (lstrip_none q s H). apply rstrip_none, H. Qed.

(** ** The matcher *)

Lemma sub_render re tpl s : sub re tpl s = render tpl (pieces re None s 0).
Proof. reflexivity. Qed.

Lemma render_keep tpl s : render tpl (map Keep s) = s.
Proof. induction s as [|c s IH]; simpl; [reflexivity|]. f_equal. exact IH. Qed.

(** A pattern whose first character is of class [q] matches neither at a
    character outside [q] nor at the end of the subject. *)
Lemma match_here_first re q :
  first_class re = Some q ->
  forall prev c s pos cs, q c = false -> match_here re prev (c :: s) pos cs = None.
Proof.
  induction re as [|n re IH]; simpl; [discriminate|].
  destruct n as [q'|q' lo hi g| | | |]; intros H prev c s pos cs Hc.
  - injection H as ->. rewrite Hc. reflexivity.
  - destruct lo as [|lo]; [discriminate|]. injection H as ->.
    simpl. rewrite Hc. simpl. destruct g; reflexivity.
  - apply IH; assumption.
  - apply IH; assumption.
  - destruct (at_bol prev); [apply IH; assumption | reflexivity].
  - discriminate.
Qed.

Lemma match_here_end re q :
  first_class re = Some q ->
  forall prev pos cs, match_here re prev [] pos cs = None.
Proof.
  induction re as [|n re IH]; simpl; [discriminate|].
  destruct n as [q'|q' lo hi g| | | |]; intros H prev pos cs.
  - reflexivity.
  - destruct lo as [|lo]; [discriminate | reflexivity].
  - apply IH; assumption.
  - apply IH; assumption.
  - destruct (at_bol prev); [apply IH; assumption | reflexivity].
  - discriminate.
Qed.

(** A match never ends before the position it started from. *)
Lemma rep_pos q g (k : cont) :
  (forall prev s pos cs r, k prev s pos cs = Some r -> pos <= fst r) ->
  forall s lo hi prev pos cs r,
  rep q g k lo hi prev s pos cs = Some r -> pos <= fst r.
Proof.
  intros Hk. induction s as [|c s IH]; intros lo hi prev pos cs r; cbn [rep].
  - destruct (Nat.eqb lo 0); [apply Hk | discriminate].
  - assert (Hmore : (if q c && has_room hi
                     then rep q g k (pred lo) (less_room hi) (Some c) s (S pos) cs
                     else None) = Some r -> pos <= fst r).
    { destruct (q c && has_room hi); [|discriminate].
      intros H. apply IH in H. lia. }
    assert (Hstop : (if Nat.eqb lo 0 then k prev (c :: s) pos cs else None) = Some r ->
                    pos <= fst r).
    { destruct (Nat.eqb lo 0); [apply Hk | discriminate]. }
    destruct g.
    + destruct (if q c && has_room hi then _ else _) as [r'|] eqn:E.
      * intros H. injection H as <-. apply Hmore. reflexivity.
      * exact Hstop.
    + destruct (if Nat.eqb lo 0 then _ else _) as [r'|] eqn:E.
      * intros H. injection H as <-. apply Hstop. reflexivity.
      * exact Hmore.
Qed.

Lemma match_here_pos re :
  forall prev s pos cs r, match_here re prev s pos cs = Some r -> pos <= fst r.
Proof.
  induction re as [|n re IH]; intros prev s pos cs r; cbn [match_here].
  - intros H. injection H as <-. reflexivity.
  - destruct n as [q|q lo hi g|g|g| |].
    + destruct s as [|c s]; [discriminate|]. destruct (q c); [|discriminate].
      intros H. apply IH in H. lia.
    + apply rep_pos. exact IH.
    + apply IH.
    + apply IH.
    + destruct (at_bol prev); [apply IH | discriminate].
    + destruct (at_eol s); [apply IH | discriminate].
Qed.

(** A pattern that fixes the class of its first character consumes at least
    one character: no match of it is empty. *)
Lemma match_here_consumes re q :
  first_class re = Some q ->
  forall prev s pos cs r, match_here re prev s pos cs = Some r -> pos < fst r.
Proof.
  induction re as [|n re IH]; cbn [first_class]; [discriminate|].
  destruct n as [q'|q' lo hi g|g|g| |]; intros H prev s pos cs r; cbn [match_here].
  - destruct s as [|c s]; [discriminate|]. destruct (q' c); [|discriminate].
    intros Hm. apply match_here_pos in Hm. lia.
  - destruct lo as [|lo]; [discriminate|].
    destruct s as [|c s]; cbn [rep Nat.eqb]; [discriminate|].
    assert (Hmore : (if q' c && has_room hi
                     then rep q' g (match_here re) (pred (S lo)) (less_room hi)
                            (Some c) s (S pos) cs
                     else None) = Some r -> pos < fst r).
    { destruct (q' c && has_room hi); [|discriminate].
      intros Hm. apply (rep_pos q' g (match_here re) (match_here_pos re)) in Hm. lia. }
    destruct g.
    + destruct (if q' c && has_room hi then _ else _) as [r'|] eqn:E; [|discriminate].
      intros Hm. injection Hm as <-. apply Hmore. reflexivity.
    + exact Hmore.
  - apply IH, H.
  - apply IH, H.
  - destruct (at_bol prev); [apply IH, H | discriminate].
  - discriminate.
Qed.

(** Every pattern of the script fixes the class of its first character. *)
Lemma patterns_consume :
  Forall (fun re => exists q, first_class re = Some q)
    [LINK_PATTERN; HEADING_PATTERN; BOLD; ITALIC; CODE; INLINE_LINK; PUNCT; SPACES].
Proof. repeat constructor; eexists; reflexivity. Qed.

Lemma pieces_keep re q :
  first_class re = Some q ->
  forall s prev, Forall (fun c => q c = false) s -> pieces re prev s 0 = map Keep s.
Proof.
  intros Hre s. induction s as [|c s IH]; intros prev Hs; simpl; [reflexivity|].
  inversion Hs as [|? ? Hc Hs']; subst.
  pose proof (match_here_first re q Hre prev c s 0 no_captures Hc) as Hm.
  simpl in Hm. rewrite Hm. f_equal. apply IH, Hs'.
Qed.

(** Substitution leaves a subject alone in which the pattern's first
    character does not occur. *)
Lemma sub_no_match re q tpl s :
  first_class re = Some q -> Forall (fun c => q c = false) s -> sub re tpl s = s.
Proof.
  intros Hre Hs. rewrite sub_render, (pieces_keep re q Hre s None Hs).
  apply render_keep.
Qed.

(** Step 7: deleting the matches of a one-character class is a filter. *)
Lemma pieces_class q s prev :
  render [] (pieces [Chr q] prev s 0) = List.filter (fun c => negb (q c)) s.
Proof.
  revert prev. induction s as [|c s IH]; intros prev; simpl; [reflexivity|].
  destruct (q c); simpl; [apply IH | f_equal; apply IH].
Qed.

Lemma sub_punct s :
  sub PUNCT [] s = List.filter (fun c => negb (not_slug_class c)) s.
Proof. apply pieces_class. Qed.

(** A greedy repetition at the end of a pattern takes the whole run. *)
Lemma rep_accept_run q lo s :
  forall prev pos cs,
  rep q true (match_here []) lo None prev s pos cs
  = if Nat.leb lo (run q s) then Some (pos + run q s, cs) else None.
Proof.
  revert lo. induction s as [|c s IH]; intros lo prev pos cs; simpl.
  - destruct lo; simpl; [rewrite Nat.add_0_r|]; reflexivity.
  - destruct (q c); simpl.
    + rewrite IH. destruct lo as [|lo]; simpl.
      * rewrite Nat.add_succ_r. reflexivity.
      * destruct (Nat.leb lo (run q s)); [rewrite Nat.add_succ_r|]; reflexivity.
    + destruct lo; simpl; [rewrite Nat.add_0_r|]; reflexivity.
Qed.

(** Step 8: replacing the runs of white space is [hyphenate]. *)
Lemma pieces_spaces s :
  forall prev,
  render [TLit [hyphen]] (pieces SPACES prev s (run isspace s)) = hyphenate true s
  /\ render [TLit [hyphen]] (pieces SPACES prev s 0) = hyphenate false s.
Proof.
  induction s as [|c s IH]; intros prev; [split; reflexivity|].
  destruct (IH (Some c)) as [IH1 IH2].
  cbn [run hyphenate]. destruct (isspace c) eqn:Hc.
  - split; [exact IH1|].
    cbn [pieces SPACES plus match_here]. rewrite rep_accept_run.
    cbn [run]. rewrite Hc. simpl Nat.leb. cbn iota. simpl.
    f_equal. exact IH1.
  - split.
    + cbn [pieces SPACES plus match_here]. rewrite rep_accept_run.
      cbn [run]. rewrite Hc. simpl. f_equal. exact IH2.
    + cbn [pieces SPACES plus match_here]. rewrite rep_accept_run.
      cbn [run]. rewrite Hc. simpl. f_equal. exact IH2.
Qed.

Lemma sub_spaces s : sub SPACES [TLit [hyphen]] s = hyphenate false s.
Proof. apply (pieces_spaces s None). Qed.

Lemma hyphenate_Forall (P : ascii -> Prop) b s :
  Forall P s ->
  Forall (fun c => c = hyphen \/ (P c /\ isspace c = false)) (hyphenate b s).
Proof.
  intros H. revert b. induction H as [|c s Hc Hs IH]; intros b; simpl; [constructor|].
  destruct (isspace c) eqn:E.
  - destruct b; [apply IH | constructor; [left; reflexivity | apply IH]].
  - constructor; [right; split; assumption | apply IH].
Qed.

(** ** slugify_heading *)

(** Steps 6 to 8 produce slug characters only. *)
Lemma slug_body_chars u :
  Forall (fun c => slug_char c = true)
         (sub SPACES [TLit [hyphen]] (sub PUNCT [] (lower u))).
Proof.
  rewrite sub_spaces, sub_punct.
  eapply Forall_impl;
    [apply (hyphenate_Forall (fun c => lower_char c = c /\ not_slug_class c = false))|].
  - apply List.Forall_forall. intros c Hc.
    apply List.filter_In in Hc as [Hc Hk]. unfold lower in Hc.
    apply List.in_map_iff in Hc as (a & <- & _).
    split; [apply lower_char_idem | destruct (not_slug_class (lower_char a)); [discriminate | reflexivity]].
  - intros c [-> | [[Hl Hp] Hs]]; [reflexivity | apply slug_char_intro; assumption].
Qed.

Lemma Forall_slug (q : ascii -> bool) s :
  (forall c, slug_char c = true -> q c = false) ->
  Forall (fun c => slug_char c = true) s -> Forall (fun c => q c = false) s.
Proof. intros Hq Hs. eapply Forall_impl; [exact Hs | exact Hq]. Qed.

(** A string of slug characters without hyphens at its ends is its own slug. *)
Lemma slugify_fixed t :
  Forall (fun c => slug_char c = true) t ->
  slugify_heading (strip (is_char hyphen) t) = strip (is_char hyphen) t.
Proof.
  intros Ht.
  assert (Hs : Forall (fun c => slug_char c = true) (strip (is_char hyphen) t))
    by (apply strip_Forall, Ht).
  unfold slugify_heading.
  rewrite (strip_none isspace) by (apply (Forall_slug _ _ slug_char_not_space Hs)).
  rewrite (sub_no_match BOLD (is_char "*"))
    by (reflexivity || apply (Forall_slug _ _ slug_char_not_star Hs)).
  rewrite (sub_no_match ITALIC (is_char "*"))
    by (reflexivity || apply (Forall_slug _ _ slug_char_not_star Hs)).
  rewrite (sub_no_match CODE (is_char "`"))
    by (reflexivity || apply (Forall_slug _ _ slug_char_not_tick Hs)).
  rewrite (sub_no_match INLINE_LINK (is_char "["))
    by (reflexivity || apply (Forall_slug _ _ slug_char_not_bracket Hs)).
  assert (Hl : lower (strip (is_char hyphen) t) = strip (is_char hyphen) t).
  { unfold lower. induction Hs as [|c s Hc Hs IH]; simpl; [reflexivity|].
    rewrite (slug_char_lower c Hc), IH. reflexivity. }
  rewrite Hl.
  rewrite (sub_no_match PUNCT not_slug_class)
    by (reflexivity || apply (Forall_slug _ _ slug_char_not_punct Hs)).
  rewrite (sub_no_match SPACES isspace)
    by (reflexivity || apply (Forall_slug _ _ slug_char_not_space Hs)).
  apply strip_idem.
Qed.

(** C2.  Slugifying a slug returns it unchanged:
    [slugify_heading (slugify_heading x) = slugify_heading x] for every
    string [x]. *)
Theorem slugify_heading_idempotent (x : str) :
  slugify_heading (slugify_heading x) = slugify_heading x.
Proof.
  unfold slugify_heading at 2 3. apply slugify_fixed, slug_body_chars.
Qed.

(** ** extract_anchors *)

Lemma add_anchors_elem ms :
  forall (acc : gset str) (a : str),
  a ∈ add_anchors ms acc
  <-> a ∈ acc \/ (a <> [] /\ exists m, m ∈ ms /\ slugify_heading (group m 1) = a).
Proof.
  induction ms as [|m ms IH]; intros acc a; cbn [add_anchors].
  - split; [auto|]. intros [H | (_ & m & Hm & _)]; [exact H | inversion Hm].
  - destruct (slugify_heading (group m 1)) as [|c slug] eqn:E; rewrite IH.
    + split.
      * intros [H | (Hne & m' & Hm' & Hs)]; [auto|].
        right. split; [exact Hne|]. exists m'. split; [right; exact Hm' | exact Hs].
      * intros [H | (Hne & m' & Hm' & Hs)]; [auto|].
        apply elem_of_cons in Hm' as [-> | Hm'].
        -- rewrite E in Hs. congruence.
        -- right. split; [exact Hne|]. exists m'. split; assumption.
    + rewrite elem_of_union, elem_of_singleton. split.
      * intros [[-> | H] | (Hne & m' & Hm' & Hs)].
        -- right. split; [discriminate|]. exists m. split; [left | exact E].
        -- auto.
        -- right. split; [exact Hne|]. exists m'. split; [right; exact Hm' | exact Hs].
      * intros [H | (Hne & m' & Hm' & Hs)]; [auto|].
        apply elem_of_cons in Hm' as [-> | Hm'].
        -- left. left. rewrite <- Hs, E. reflexivity.
        -- right. split; [exact Hne|]. exists m'. split; assumption.
Qed.

(** The anchors of a file are the non-empty slugs of its headings. *)
Lemma extract_anchors_elem fs filepath (a : str) :
  a ∈ extract_anchors fs filepath
  <-> a <> [] /\ exists h, h ∈ headings fs filepath /\ slugify_heading h = a.
Proof.
  unfold extract_anchors, headings.
  destruct (read_text fs filepath) as [content|].
  - rewrite add_anchors_elem. unfold heading_texts. split.
    + intros [H | (Hne & m & Hm & Hs)]; [set_solver|].
      split; [exact Hne|]. exists (group m 1). split; [|exact Hs].
      apply list_elem_of_fmap. exists m. split; [reflexivity | exact Hm].
    + intros (Hne & h & Hh & Hs). right. split; [exact Hne|].
      apply list_elem_of_fmap in Hh as (m & -> & Hm). exists m. split; assumption.
  - split; [set_solver|]. intros (_ & h & Hh & _). inversion Hh.
Qed.

Lemma extract_anchors_unreadable fs filepath :
  read_text fs filepath = None -> extract_anchors fs filepath = ∅.
Proof. intros H. unfold extract_anchors. rewrite H. reflexivity. Qed.

Lemma extract_anchors_two_intros fs filepath :
  headings fs filepath = [lit "Intro"; lit "Intro"] ->
  extract_anchors fs filepath = {[ lit "intro" ]}.
Proof.
  intros H. apply set_eq. intros a.
  rewrite extract_anchors_elem, H, elem_of_singleton. split.
  - intros (_ & h & Hh & <-).
    apply elem_of_cons in Hh as [-> | Hh]; [vm_compute; reflexivity|].
    apply elem_of_cons in Hh as [-> | Hh]; [vm_compute; reflexivity | inversion Hh].
  - intros ->. split; [discriminate|]. exists (lit "Intro").
    split; [left | vm_compute; reflexivity].
Qed.

Lemma extract_anchors_list fs filepath :
  extract_anchors fs filepath
  = list_to_set (filter (fun a => a <> lit "") (slugify_heading <$> headings fs filepath)).
Proof.
  apply set_eq. intros a.
  rewrite extract_anchors_elem, elem_of_list_to_set, list_elem_of_filter, list_elem_of_fmap.
  split.
  - intros (Hne & h & Hh & <-). split; [exact Hne|]. exists h. split; [reflexivity | exact Hh].
  - intros (Hne & h & -> & Hh). split; [exact Hne|]. exists h. split; [exact Hh | reflexivity].
Qed.

(** C9.  [extract_anchors] returns a proper set: its elements are listed
    without repetition, the empty string is never one of them, and an anchor
    is in the set exactly when it is the non-empty slug of some heading, so
    headings with one slug give one anchor and a heading whose slug is empty
    gives none.  A document whose only headings are two times Intro has the
    one-element set of intro. *)
Theorem extract_anchors_proper_set (fs : entry) (filepath : path) :
  NoDup (elements (extract_anchors fs filepath))
  /\ (lit "" ∉ extract_anchors fs filepath)
  /\ (forall a : str,
        a ∈ extract_anchors fs filepath
        <-> a <> lit "" /\ exists h, h ∈ headings fs filepath /\ slugify_heading h = a)
  /\ extract_anchors fs filepath
     = list_to_set (filter (fun a => a <> lit "") (slugify_heading <$> headings fs filepath))
  /\ (headings fs filepath = [lit "Intro"; lit "Intro"] ->
        extract_anchors fs filepath = {[ lit "intro" ]}
        /\ size (extract_anchors fs filepath) = 1)
  /\ headings (tree (lit "# Intro
text
## Intro")) a_md = [lit "Intro"; lit "Intro"].
Proof.
  split; [apply NoDup_elements|].
  split; [rewrite extract_anchors_elem; intros [H _]; apply H; reflexivity|].
  split; [intros a; apply extract_anchors_elem|].
  split; [apply extract_anchors_list|].
  split; [|vm_compute; reflexivity].
  intros H. rewrite (extract_anchors_two_intros fs filepath H).
  split; [reflexivity | apply size_singleton].
Qed.

(** ** The resolver as a scan over the references *)

Lemma scan_links_app fs cr fp r1 :
  forall r2 issues,
  scan_links fs cr fp (r1 ++ r2) issues
  = (i <- scan_links fs cr fp r1 issues ;; scan_links fs cr fp r2 i).
Proof.
  induction r1 as [|[n t] r1 IH]; intros r2 issues; [reflexivity|].
  cbn [app scan_links]. destruct (check_link fs cr fp n t issues); [apply IH | reflexivity].
Qed.

Lemma scan_matches_links fs cr fp n ms :
  forall issues,
  scan_matches fs cr fp n ms issues
  = scan_links fs cr fp (map (fun m => (n, group m 2)) ms) issues.
Proof.
  induction ms as [|m ms IH]; intros issues; [reflexivity|].
  cbn [map scan_matches scan_links].
  destruct (check_link fs cr fp n (group m 2) issues); [apply IH | reflexivity].
Qed.

Lemma scan_lines_links fs cr fp lines :
  forall n issues,
  scan_lines fs cr fp lines n issues = scan_links fs cr fp (numbered_links lines n) issues.
Proof.
  induction lines as [|l lines IH]; intros n issues; [reflexivity|].
  cbn [scan_lines numbered_links]. unfold line_links.
  destruct (is_fence l).
  - apply IH.
  - rewrite scan_links_app, scan_matches_links.
    destruct (scan_links fs cr fp _ issues); [apply IH | reflexivity].
Qed.

(** [validate_file] runs the loop body over the references of the document,
    in order. *)
Lemma validate_file_links fs cr fp sr content :
  read_text fs fp = Some content ->
  validate_file fs cr fp sr = scan_links fs cr fp (doc_links content) [].
Proof.
  intros H. unfold validate_file, doc_links. rewrite H. apply scan_lines_links.
Qed.

(** ** The loop body, case by case *)

Lemma new_issue_ok cr fp rel n t reason :
  relative_to fp cr = Ok rel ->
  new_issue cr fp n t reason = Ok (mkIssue (str_of_rel rel) n t reason).
Proof. intros H. unfold new_issue. rewrite H. reflexivity. Qed.

Lemma new_issue_inv cr fp n t reason i :
  new_issue cr fp n t reason = Ok i ->
  exists rel, relative_to fp cr = Ok rel /\ i = mkIssue (str_of_rel rel) n t reason.
Proof.
  unfold new_issue. destruct (relative_to fp cr) as [rel|e]; simpl; [|discriminate].
  intros H. injection H as <-. exists rel. split; reflexivity.
Qed.

Lemma anchor_not_external t : startswith (lit "#") t = true -> is_external t = false.
Proof.
  destruct t as [|c t]; [discriminate|].
  change (startswith (lit "#") (c :: t)) with (Ascii.eqb "#" c && true).
  rewrite andb_true_r. intros H. apply Ascii.eqb_eq in H. subst c. reflexivity.
Qed.

(** A same-document anchor: the target begins with [#]. *)
Lemma check_link_anchor fs cr fp n t issues :
  startswith (lit "#") t = true ->
  check_link fs cr fp n t issues
  = if bool_decide (drop 1 t ∉ extract_anchors fs fp)
    then i <- new_issue cr fp n t (lit "Anchor not found in file") ;; Ok (issues ++ [i])
    else Ok issues.
Proof.
  intros H. unfold check_link. rewrite (anchor_not_external t H), H. reflexivity.
Qed.

(** A cross-document reference whose resolved file part exists. *)
Lemma check_link_found fs cr fp n t issues file_part anchor_part :
  cross_document t ->
  split_target t = (file_part, anchor_part) ->
  exists_ fs (target_of fp file_part) = true ->
  check_link fs cr fp n t issues
  = if truthy anchor_part && is_file fs (target_of fp file_part)
    then if bool_decide (default [] anchor_part ∉ extract_anchors fs (target_of fp file_part))
         then i <- new_issue cr fp n t
                     (lit "Anchor `#" ++ default [] anchor_part
                      ++ lit "` not found in target file") ;;
              Ok (issues ++ [i])
         else Ok issues
    else Ok issues.
Proof.
  intros [He Ha] Hs Hx. unfold check_link. rewrite He, Ha, Hs.
  fold (target_of fp file_part). rewrite Hx. reflexivity.
Qed.

(** A cross-document reference whose resolved file part does not exist. *)
Lemma check_link_missing fs cr fp n t issues file_part anchor_part :
  cross_document t ->
  split_target t = (file_part, anchor_part) ->
  exists_ fs (target_of fp file_part) = false ->
  check_link fs cr fp n t issues
  = (suggestion <-
       (if exists_ fs (parent (target_of fp file_part))
        then siblings <- iterdir fs (parent (target_of fp file_part)) ;;
             Ok (suggest (name (target_of fp file_part)) siblings)
        else Ok []) ;;
     i <- new_issue cr fp n t
            ((if endswith (lit "/") file_part then lit "Directory" else lit "File")
             ++ lit " not found" ++ suggestion) ;;
     Ok (issues ++ [i])).
Proof.
  intros [He Ha] Hs Hx. unfold check_link. rewrite He, Ha, Hs.
  fold (target_of fp file_part). rewrite Hx. reflexivity.
Qed.

(** One reference adds at most one Issue, built by [new_issue]. *)
Lemma check_link_cases fs cr fp n t issues out :
  check_link fs cr fp n t issues = Ok out ->
  out = issues
  \/ exists reason i, new_issue cr fp n t reason = Ok i /\ out = issues ++ [i].
Proof.
  unfold check_link.
  destruct (is_external t); [intros H; injection H as <-; left; reflexivity|].
  destruct (startswith (lit "#") t).
  { destruct (bool_decide _); [|intros H; injection H as <-; left; reflexivity].
    destruct (new_issue cr fp n t _) as [i|e] eqn:E; cbn [bind]; [|discriminate].
    intros H; injection H as <-. right. eauto. }
  destruct (split_target t) as [file_part anchor_part].
  destruct (negb _).
  { destruct (if exists_ fs _ then _ else _) as [sg|e]; cbn [bind]; [|discriminate].
    destruct (new_issue cr fp n t _) as [i|e] eqn:E; cbn [bind]; [|discriminate].
    intros H; injection H as <-. right. eauto. }
  destruct (truthy anchor_part && is_file fs _);
    [|intros H; injection H as <-; left; reflexivity].
  destruct (bool_decide _); [|intros H; injection H as <-; left; reflexivity].
  destruct (new_issue cr fp n t _) as [i|e] eqn:E; cbn [bind]; [|discriminate].
  intros H; injection H as <-. right. eauto.
Qed.

(** What a reference adds does not depend on the issues collected so far. *)
Lemma check_link_frame fs cr fp n t issues :
  check_link fs cr fp n t issues
  = (more <- check_link fs cr fp n t [] ;; Ok (issues ++ more)).
Proof.
  unfold check_link.
  destruct (is_external t); [cbn [bind]; rewrite app_nil_r; reflexivity|].
  destruct (startswith (lit "#") t).
  { destruct (bool_decide _); [|cbn [bind]; rewrite app_nil_r; reflexivity].
    destruct (new_issue cr fp n t _) as [i|e]; reflexivity. }
  destruct (split_target t) as [file_part anchor_part].
  destruct (negb _).
  { destruct (if exists_ fs _ then _ else _) as [sg|e]; cbn [bind]; [|reflexivity].
    destruct (new_issue cr fp n t _) as [i|e]; reflexivity. }
  destruct (truthy anchor_part && is_file fs _);
    [|cbn [bind]; rewrite app_nil_r; reflexivity].
  destruct (bool_decide _); [|cbn [bind]; rewrite app_nil_r; reflexivity].
  destruct (new_issue cr fp n t _) as [i|e]; reflexivity.
Qed.

Lemma scan_links_frame fs cr fp refs :
  forall issues,
  scan_links fs cr fp refs issues
  = (more <- scan_links fs cr fp refs [] ;; Ok (issues ++ more)).
Proof.
  induction refs as [|[n t] refs IH]; intros issues; cbn [scan_links].
  - cbn [bind]. rewrite app_nil_r. reflexivity.
  - rewrite (check_link_frame fs cr fp n t issues).
    destruct (check_link fs cr fp n t []) as [d|e]; cbn [bind app]; [|reflexivity].
    rewrite (IH (issues ++ d)), (IH d).
    destruct (scan_links fs cr fp refs []) as [m|e]; cbn [bind]; [|reflexivity].
    rewrite app_assoc. reflexivity.
Qed.

(** The result of [validate_file] in terms of the reference the resolver
    stands at. *)
Lemma validate_file_around fs cr fp sr content before n t after acc here :
  reaches fs cr fp content before n t after acc ->
  check_link fs cr fp n t acc = Ok (acc ++ here) ->
  validate_file fs cr fp sr = issues_around fs cr fp acc here after.
Proof.
  intros (Hread & Hrefs & Hacc) Hc.
  rewrite (validate_file_links fs cr fp sr content Hread), Hrefs, scan_links_app, Hacc.
  cbn [bind scan_links]. rewrite Hc. cbn [bind]. rewrite scan_links_frame.
  unfold issues_around.
  destruct (scan_links fs cr fp after []) as [m|e]; cbn [bind]; [|reflexivity].
  rewrite app_assoc. reflexivity.
Qed.

Lemma validate_file_silent fs cr fp sr content before n t after acc :
  reaches fs cr fp content before n t after acc ->
  check_link fs cr fp n t acc = Ok acc ->
  validate_file fs cr fp sr = issues_around fs cr fp acc [] after.
Proof.
  intros Hr Hc. apply (validate_file_around fs cr fp sr content before n t after acc [] Hr).
  rewrite app_nil_r. exact Hc.
Qed.

Lemma headings_read fs fp content :
  read_text fs fp = Some content -> headings fs fp = heading_texts content.
Proof. intros H. unfold headings. rewrite H. reflexivity. Qed.

Lemma is_file_exists fs p : is_file fs p = true -> exists_ fs p = true.
Proof.
  unfold is_file, exists_. destruct (lookup_path fs p) as [[|]|]; [reflexivity | discriminate..].
Qed.

Lemma is_dir_not_file fs p : is_dir fs p = true -> is_file fs p = false.
Proof.
  unfold is_dir, is_file. destruct (lookup_path fs p) as [[|]|]; [discriminate | reflexivity..].
Qed.

(** C8 (amended).  In a document under the codex root, take a reference
    whose target begins with [#], and let the anchor be the target without
    that character.  If the anchor is empty or no heading of the document
    slugifies to it, the resolver emits exactly one Issue for the reference,
    with reason "Anchor not found in file"; if the anchor is not empty and
    some heading slugifies to it, the reference produces no Issue. *)
Theorem same_document_anchor_checked
    (fs : entry) (cr fp sr : path) (content : str)
    (before : list (nat * str)) (n : nat) (target : str) (after : list (nat * str))
    (acc : list Issue) (rel : path) :
  reaches fs cr fp content before n target after acc ->
  startswith (lit "#") target = true ->
  relative_to fp cr = Ok rel ->
  ((drop 1 target = lit ""
    \/ forall h, h ∈ heading_texts content -> slugify_heading h <> drop 1 target) ->
   validate_file fs cr fp sr
   = issues_around fs cr fp acc
       [mkIssue (str_of_rel rel) n target (lit "Anchor not found in file")] after)
  /\ (drop 1 target <> lit "" ->
      (exists h, h ∈ heading_texts content /\ slugify_heading h = drop 1 target) ->
      validate_file fs cr fp sr = issues_around fs cr fp acc [] after).
Proof.
  intros Hr Hs Hrel.
  pose proof (extract_anchors_elem fs fp (drop 1 target)) as He.
  rewrite (headings_read fs fp content (proj1 Hr)) in He.
  split.
  - intros Hno. apply (validate_file_around fs cr fp sr content before n target after acc _ Hr).
    rewrite (check_link_anchor fs cr fp n target acc Hs), bool_decide_eq_true_2.
    + rewrite (new_issue_ok cr fp rel n target _ Hrel). reflexivity.
    + intros Hin. apply He in Hin as (Hne & h & Hh & Heq).
      destruct Hno as [Hno | Hno]; [exact (Hne Hno) | exact (Hno h Hh Heq)].
  - intros Hne Hex. apply (validate_file_silent fs cr fp sr content before n target after acc Hr).
    rewrite (check_link_anchor fs cr fp n target acc Hs), bool_decide_eq_false_2;
      [reflexivity|].
    intros Hnot. apply Hnot, He. split; assumption.
Qed.

Lemma same_document_anchor_checked_witness :
  validate_file (tree doc_missing_anchor) codex a_md docs
  = issues_around (tree doc_missing_anchor) codex a_md []
      [mkIssue (lit "docs/a.md") 2 (lit "#missing-anchor") (lit "Anchor not found in file")]
      [(2, lit "#intro")].
Proof.
  refine (proj1 (same_document_anchor_checked (tree doc_missing_anchor) codex a_md docs
                   doc_missing_anchor [] 2 (lit "#missing-anchor") [(2, lit "#intro")] []
                   [lit "docs"; lit "a.md"] _ _ _) _).
  - repeat split; vm_compute; reflexivity.
  - reflexivity.
  - reflexivity.
  - right. intros h Hh.
    change (heading_texts doc_missing_anchor) with [lit "Intro"] in Hh.
    apply list_elem_of_singleton in Hh. subst h. vm_compute. discriminate.
Defined.

(** The claim as stated fails for the target [#] in a document with a
    heading whose slug is empty: a heading slugifies to the anchor, and the
    reference is reported all the same. *)
Lemma same_document_anchor_empty_slug :
  heading_texts doc_empty_slug = [lit "!"]
  /\ slugify_heading (lit "!") = drop 1 (lit "#")
  /\ doc_links doc_empty_slug = [(2, lit "#")]
  /\ validate_file (tree doc_empty_slug) codex a_md docs
     = Ok [mkIssue (lit "docs/a.md") 2 (lit "#") (lit "Anchor not found in file")].
Proof. repeat split; vm_compute; reflexivity. Qed.

(** C5 (amended).  In a document under the codex root, take a
    cross-document reference that carries an anchor part and whose resolved
    target exists.  If the target is a regular file, the anchor part is not
    empty and no heading of the target slugifies to it, the resolver emits
    exactly one Issue with reason
    "Anchor `#<anchor-part>` not found in target file"; if the target is a
    directory, no Issue is emitted whatever the anchor part. *)
Theorem cross_document_anchor_checked
    (fs : entry) (cr fp sr : path) (content : str)
    (before : list (nat * str)) (n : nat) (target : str) (after : list (nat * str))
    (acc : list Issue) (rel : path) (file_part anchor : str) :
  reaches fs cr fp content before n target after acc ->
  cross_document target ->
  split_target target = (file_part, Some anchor) ->
  exists_ fs (target_of fp file_part) = true ->
  relative_to fp cr = Ok rel ->
  (is_file fs (target_of fp file_part) = true ->
   anchor <> lit "" ->
   (forall h, h ∈ headings fs (target_of fp file_part) -> slugify_heading h <> anchor) ->
   validate_file fs cr fp sr
   = issues_around fs cr fp acc
       [mkIssue (str_of_rel rel) n target
          (lit "Anchor `#" ++ anchor ++ lit "` not found in target file")] after)
  /\ (is_dir fs (target_of fp file_part) = true ->
      validate_file fs cr fp sr = issues_around fs cr fp acc [] after).
Proof.
  intros Hr Hc Hs Hx Hrel.
  pose proof (check_link_found fs cr fp n target acc file_part (Some anchor) Hc Hs Hx) as Hk.
  split.
  - intros Hf Hne Hno.
    apply (validate_file_around fs cr fp sr content before n target after acc _ Hr).
    rewrite Hk, Hf.
    destruct anchor as [|c anchor]; [contradiction Hne; reflexivity|].
    cbn [truthy andb default]. rewrite bool_decide_eq_true_2.
    + rewrite (new_issue_ok cr fp rel n target _ Hrel). reflexivity.
    + intros Hin. apply extract_anchors_elem in Hin as (_ & h & Hh & Heq).
      exact (Hno h Hh Heq).
  - intros Hd.
    apply (validate_file_silent fs cr fp sr content before n target after acc Hr).
    rewrite Hk, (is_dir_not_file fs _ Hd), andb_false_r. reflexivity.
Qed.

Lemma cross_document_anchor_checked_witness :
  validate_file (tree doc_anchor_links) codex a_md docs
  = issues_around (tree doc_anchor_links) codex a_md []
      [mkIssue (lit "docs/a.md") 1 (lit "b.md#nope")
         (lit "Anchor `#" ++ lit "nope" ++ lit "` not found in target file")]
      [(1, lit "b.md#setup"); (1, lit "sub/#setup")].
Proof.
  refine (proj1 (cross_document_anchor_checked (tree doc_anchor_links) codex a_md docs
                   doc_anchor_links [] 1 (lit "b.md#nope")
                   [(1, lit "b.md#setup"); (1, lit "sub/#setup")] []
                   [lit "docs"; lit "a.md"] (lit "b.md") (lit "nope") _ _ _ _ _) _ _ _).
  - repeat split; vm_compute; reflexivity.
  - split; reflexivity.
  - reflexivity.
  - reflexivity.
  - reflexivity.
  - reflexivity.
  - discriminate.
  - intros h Hh.
    change (headings (tree doc_anchor_links) (target_of a_md (lit "b.md")))
      with [lit "Setup"] in Hh.
    apply list_elem_of_singleton in Hh. subst h. vm_compute. discriminate.
Defined.

(** The claim as stated fails for a target that ends in [#]: it carries an
    anchor part, the empty one, to which no heading of the target file
    slugifies, and no Issue is emitted. *)
Lemma cross_document_anchor_empty :
  doc_links doc_empty_anchor = [(1, lit "b.md#")]
  /\ split_target (lit "b.md#") = (lit "b.md", Some (lit ""))
  /\ target_of a_md (lit "b.md") = b_md
  /\ is_file (tree doc_empty_anchor) b_md = true
  /\ slugify_heading <$> headings (tree doc_empty_anchor) b_md = [lit "setup"]
  /\ validate_file (tree doc_empty_anchor) codex a_md docs = Ok [].
Proof. repeat split; vm_compute; reflexivity. Qed.

(** ** The character [#] in a target *)

Lemma contains_char (c : ascii) s : contains s [c] = existsb (Ascii.eqb c) s.
Proof.
  induction s as [|a s IH]; [reflexivity|].
  cbn [contains startswith existsb]. rewrite IH, andb_true_r. reflexivity.
Qed.

Lemma split_hash_last s :
  existsb (Ascii.eqb "#") s = false -> split_hash (s ++ lit "#") = (s, []).
Proof.
  induction s as [|a s IH]; [reflexivity|].
  cbn [existsb app split_hash]. intros H. apply orb_false_elim in H as [Ha Hs].
  rewrite Ha, (IH Hs). reflexivity.
Qed.

(** A target whose first [#] is its last character has the empty anchor part. *)
Lemma split_target_last file_part :
  contains file_part (lit "#") = false ->
  split_target (file_part ++ lit "#") = (file_part, Some (lit "")).
Proof.
  intros H. unfold split_target.
  change (lit "#") with ["#"%char] in *. rewrite contains_char in H.
  rewrite contains_char, existsb_app. cbn [existsb]. rewrite Ascii.eqb_refl, orb_true_r.
  change ["#"%char] with (lit "#").
  rewrite (split_hash_last file_part H). reflexivity.
Qed.

(** C6 (amended).  For a cross-document reference whose target ends in
    [#] and holds no other [#], so that the anchor part obtained by splitting
    at the first [#] is the empty string, and whose file part resolves to an
    existing regular file, the resolver emits no Issue: the empty anchor
    part is not looked up in the anchor set of the target file. *)
Theorem empty_anchor_not_checked
    (fs : entry) (cr fp sr : path) (content : str)
    (before : list (nat * str)) (n : nat) (target : str) (after : list (nat * str))
    (acc : list Issue) (file_part : str) :
  reaches fs cr fp content before n target after acc ->
  cross_document target ->
  target = file_part ++ lit "#" ->
  contains file_part (lit "#") = false ->
  is_file fs (target_of fp file_part) = true ->
  split_target target = (file_part, Some (lit ""))
  /\ validate_file fs cr fp sr = issues_around fs cr fp acc [] after.
Proof.
  intros Hr Hc Ht Hh Hf. subst target.
  pose proof (split_target_last file_part Hh) as Hs.
  split; [exact Hs|].
  apply (validate_file_silent fs cr fp sr content before n _ after acc Hr).
  rewrite (check_link_found fs cr fp n _ acc file_part (Some (lit "")) Hc Hs
             (is_file_exists fs _ Hf)).
  reflexivity.
Qed.

Lemma empty_anchor_not_checked_witness :
  split_target (lit "b.md#") = (lit "b.md", Some (lit ""))
  /\ validate_file (tree doc_empty_anchor) codex a_md docs
     = issues_around (tree doc_empty_anchor) codex a_md [] [] [].
Proof.
  refine (empty_anchor_not_checked (tree doc_empty_anchor) codex a_md docs
            doc_empty_anchor [] 1 (lit "b.md#") [] [] (lit "b.md") _ _ _ _ _).
  - repeat split; vm_compute; reflexivity.
  - split; reflexivity.
  - reflexivity.
  - reflexivity.
  - reflexivity.
Defined.

(** The claim as stated fails for a target that ends in [#] and holds
    another [#] before it: the anchor part of [b.md#x#] is [x#], it is looked
    up in the existing regular file [b.md], and the reference is reported. *)
Lemma anchor_ending_in_hash_checked :
  doc_links doc_two_hashes = [(1, lit "b.md#x#")]
  /\ endswith (lit "#") (lit "b.md#x#") = true
  /\ is_external (lit "b.md#x#") = false
  /\ startswith (lit "#") (lit "b.md#x#") = false
  /\ split_target (lit "b.md#x#") = (lit "b.md", Some (lit "x#"))
  /\ target_of a_md (lit "b.md") = b_md
  /\ is_file (tree doc_two_hashes) b_md = true
  /\ validate_file (tree doc_two_hashes) codex a_md docs
     = Ok [mkIssue (lit "docs/a.md") 1 (lit "b.md#x#")
             (lit "Anchor `#x#` not found in target file")].
Proof. repeat split; vm_compute; reflexivity. Qed.

Lemma exists_not_dir fs p : exists_ fs p = true -> is_dir fs p = false -> is_file fs p = true.
Proof.
  unfold exists_, is_dir, is_file.
  destruct (lookup_path fs p) as [[|]|]; [reflexivity | discriminate..].
Qed.




(** ** The path of an Issue *)

Lemma scan_links_files fs cr fp (P : Issue -> Prop) refs :
  (forall n t reason i, new_issue cr fp n t reason = Ok i -> P i) ->
  forall issues out,
  Forall P issues -> scan_links fs cr fp refs issues = Ok out -> Forall P out.
Proof.
  intros HP. induction refs as [|[n t] refs IH]; intros issues out Hi; cbn [scan_links].
  - intros H; injection H as <-. exact Hi.
  - destruct (check_link fs cr fp n t issues) as [mid|e] eqn:E; cbn [bind]; [|discriminate].
    apply IH. apply check_link_cases in E as [-> | (reason & i & Hn & ->)]; [exact Hi|].
    apply Forall_app. split; [exact Hi|]. constructor; [|constructor].
    exact (HP n t reason i Hn).
Qed.

(** C1 (amended).  Each Issue that [validate_file] returns names the
    document by its path relative to the module constant [codex_root]; the
    argument [scan_root] is not used, and the result is the same for every
    value of it. *)
Theorem issue_paths_relative_to_codex_root
    (fs : entry) (cr fp sr : path) (issues : list Issue) :
  validate_file fs cr fp sr = Ok issues ->
  (forall i, i ∈ issues ->
     exists rel, relative_to fp cr = Ok rel /\ file i = str_of_rel rel)
  /\ (forall sr', validate_file fs cr fp sr' = Ok issues).
Proof.
  intros H. split; [|intros sr'; exact H].
  unfold validate_file in H.
  destruct (read_text fs fp) as [content|].
  - rewrite scan_lines_links in H.
    apply Forall_forall.
    refine (scan_links_files fs cr fp _ _ _ [] issues (List.Forall_nil _) H).
    intros n t reason i Hn. apply new_issue_inv in Hn as (rel & Hrel & ->).
    exists rel. split; [exact Hrel | reflexivity].
  - injection H as <-. intros i Hi. inversion Hi.
Qed.

Lemma issue_paths_relative_to_codex_root_witness :
  (forall i,
     i ∈ [mkIssue (lit "docs/a.md") 2 (lit "#missing-anchor") (lit "Anchor not found in file")] ->
     exists rel, relative_to a_md codex = Ok rel /\ file i = str_of_rel rel)
  /\ (forall sr', validate_file (tree doc_missing_anchor) codex a_md sr'
                 = Ok [mkIssue (lit "docs/a.md") 2 (lit "#missing-anchor")
                         (lit "Anchor not found in file")]).
Proof.
  apply (issue_paths_relative_to_codex_root (tree doc_missing_anchor) codex a_md docs).
  vm_compute. reflexivity.
Defined.

(** The claim as stated fails when the scan root is a directory below the
    codex root: scanning [/repo/docs], the Issue names the document
    [docs/a.md], its path from [/repo], and not [a.md], its path from the
    scan root. *)
Lemma issue_path_ignores_scan_root :
  validate_file (tree doc_missing_anchor) codex a_md docs
  = Ok [mkIssue (lit "docs/a.md") 2 (lit "#missing-anchor") (lit "Anchor not found in file")]
  /\ relative_to a_md docs = Ok [lit "a.md"]
  /\ str_of_rel [lit "a.md"] = lit "a.md"
  /\ relative_to a_md codex = Ok [lit "docs"; lit "a.md"]
  /\ str_of_rel [lit "docs"; lit "a.md"] = lit "docs/a.md".
Proof. repeat split; vm_compute; reflexivity. Qed.

(** For a document that does not lie under [codex_root], building the
    first Issue raises [ValueError]. *)
Example outside_codex_root_raises :
  relative_to a_md [lit "elsewhere"] = Raise ValueError
  /\ validate_file (tree doc_missing_anchor) [lit "elsewhere"] a_md docs = Raise ValueError.
Proof. split; vm_compute; reflexivity. Qed.

(** ** Fence markers *)

Lemma line_links_elem k line n t :
  (n, t) ∈ line_links k line
  <-> n = k /\ is_fence line = false
      /\ t ∈ map (fun m => group m 2) (finditer LINK_PATTERN line).
Proof.
  unfold line_links. destruct (is_fence line).
  - split; [intros H; inversion H | intros (_ & H & _); discriminate].
  - change (map ?f ?l) with (f <$> l). rewrite !list_elem_of_fmap. split.
    + intros (m & Heq & Hm). injection Heq as -> ->.
      split; [reflexivity|]. split; [reflexivity|]. exists m. split; [reflexivity | exact Hm].
    + intros (-> & _ & m & -> & Hm). exists m. split; [reflexivity | exact Hm].
Qed.

Lemma numbered_links_elem lines :
  forall k n t,
  (n, t) ∈ numbered_links lines k
  <-> exists line, lines !! (n - k) = Some line /\ k <= n
        /\ is_fence line = false
        /\ t ∈ map (fun m => group m 2) (finditer LINK_PATTERN line).
Proof.
  induction lines as [|l lines IH]; intros k n t; cbn [numbered_links].
  - split; [intros H; inversion H | intros (line & H & _); discriminate].
  - rewrite elem_of_app, line_links_elem, IH. split.
    + intros [(-> & Hf & Ht) | (line & Hl & Hk & Hf & Ht)].
      * exists l. rewrite Nat.sub_diag. repeat split; [lia | assumption..].
      * exists line. replace (n - k) with (S (n - S k)) by lia.
        repeat split; [exact Hl | lia | assumption..].
    + intros (line & Hl & Hk & Hf & Ht).
      destruct (decide (n = k)) as [->|Hne].
      * left. rewrite Nat.sub_diag in Hl. injection Hl as ->. repeat split; assumption.
      * right. exists line. replace (n - k) with (S (n - S k)) in Hl by lia.
        repeat split; [exact Hl | lia | assumption..].
Qed.

(** C3.  [validate_file] passes over exactly the lines whose stripped text
    begins with three backticks; every other line is scanned, wherever it
    lies: the references the resolver goes through are those of all the lines
    that are not fence markers, so a reference on a line between two fence
    markers is classified and can produce an Issue, as [y.md] on line 2 of
    the fenced sample document does. *)
Theorem fence_marker_lines_only
    (fs : entry) (cr fp sr : path) (content : str) :
  read_text fs fp = Some content ->
  validate_file fs cr fp sr = scan_links fs cr fp (doc_links content) []
  /\ (forall n t,
        (n, t) ∈ doc_links content
        <-> exists line, split_on newline content !! (n - 1) = Some line /\ 1 <= n
              /\ startswith (lit "```") (strip isspace line) = false
              /\ t ∈ map (fun m => group m 2) (finditer LINK_PATTERN line))
  /\ split_on newline doc_fenced = [lit "```"; lit "[q](y.md)"; lit "```"]
  /\ validate_file (tree doc_fenced) codex a_md docs
     = Ok [mkIssue (lit "docs/a.md") 2 (lit "y.md") (lit "File not found")].
Proof.
  intros H. split; [exact (validate_file_links fs cr fp sr content H)|].
  split; [intros n t; apply numbered_links_elem|].
  split; vm_compute; reflexivity.
Qed.

Lemma fence_marker_lines_only_witness :
  validate_file (tree doc_fenced) codex a_md docs
  = scan_links (tree doc_fenced) codex a_md (doc_links doc_fenced) []
  /\ (2, lit "y.md") ∈ doc_links doc_fenced.
Proof.
  destruct (fence_marker_lines_only (tree doc_fenced) codex a_md docs doc_fenced eq_refl)
    as (H1 & H2 & _).
  split; [exact H1|]. apply H2. exists (lit "[q](y.md)").
  repeat split; [lia | vm_compute; left].
Defined.

(** ** Targets that do not exist *)

Lemma suggest_none nm sibs :
  (forall s, s ∈ sibs -> contains s nm || contains nm s = false) ->
  suggest nm sibs = lit "".
Proof.
  induction sibs as [|s sibs IH]; intros H; [reflexivity|].
  cbn [suggest]. rewrite (H s) by left. apply IH. intros s' Hs'. apply H. right. exact Hs'.
Qed.

(** The suggestion names the first sibling that contains the name or is
    contained in it. *)
Lemma suggest_first nm l1 sib l2 :
  (forall s, s ∈ l1 -> contains s nm || contains nm s = false) ->
  contains sib nm || contains nm sib = true ->
  suggest nm (l1 ++ sib :: l2) = lit " (did you mean `" ++ sib ++ lit "`?)".
Proof.
  induction l1 as [|s l1 IH]; intros H1 H2; cbn [app suggest].
  - rewrite H2. reflexivity.
  - rewrite (H1 s) by left. apply IH; [|exact H2].
    intros s' Hs'. apply H1. right. exact Hs'.
Qed.

Lemma startswith_drop marker s :
  startswith marker s = true -> s = marker ++ drop (length marker) s.
Proof.
  revert s. induction marker as [|a marker IH]; intros s H; [reflexivity|].
  destruct s as [|c s]; [discriminate|]. cbn [startswith] in H.
  apply andb_prop in H as [Ha Hs]. apply Ascii.eqb_eq in Ha. subst c.
  cbn [length drop app]. f_equal. apply IH, Hs.
Qed.

(** [contains s needle] is the substring test. *)
Lemma startswith_app needle s :
  startswith needle s = true <-> exists b, s = needle ++ b.
Proof.
  split.
  - intros H. exists (drop (length needle) s). apply startswith_drop, H.
  - intros [b ->]. induction needle as [|a needle IH]; [reflexivity|].
    cbn [app startswith]. rewrite Ascii.eqb_refl. exact IH.
Qed.

Lemma contains_substring s needle :
  contains s needle = true <-> exists a b, s = a ++ needle ++ b.
Proof.
  induction s as [|c s IH]; cbn [contains].
  - rewrite orb_false_r, startswith_app. split.
    + intros [b H]. exists [], b. exact H.
    + intros (a & b & H). destruct a as [|x a]; [exists b; exact H | discriminate].
  - rewrite orb_true_iff, startswith_app, IH. split.
    + intros [[b H] | (a & b & ->)].
      * exists [], b. exact H.
      * exists (c :: a), b. reflexivity.
    + intros (a & b & H). destruct a as [|x a].
      * left. exists b. exact H.
      * right. injection H as -> ->. exists a, b. reflexivity.
Qed.

(** A missing target is reported once, unless its parent is a regular file. *)
Lemma missing_target_reported
    (fs : entry) (cr fp sr : path) (content : str)
    (before : list (nat * str)) (n : nat) (target : str) (after : list (nat * str))
    (acc : list Issue) (rel : path) (file_part : str) (anchor_part : option str) :
  reaches fs cr fp content before n target after acc ->
  cross_document target ->
  split_target target = (file_part, anchor_part) ->
  exists_ fs (target_of fp file_part) = false ->
  is_file fs (parent (target_of fp file_part)) = false ->
  relative_to fp cr = Ok rel ->
  validate_file fs cr fp sr
  = issues_around fs cr fp acc
      [mkIssue (str_of_rel rel) n target
         ((if endswith (lit "/") file_part then lit "Directory" else lit "File")
          ++ lit " not found"
          ++ suggest (name (target_of fp file_part))
               (siblings_of fs (parent (target_of fp file_part))))] after.
Proof.
  intros Hr Hc Hs Hx Hf Hrel.
  apply (validate_file_around fs cr fp sr content before n target after acc _ Hr).
  rewrite (check_link_missing fs cr fp n target acc file_part anchor_part Hc Hs Hx).
  unfold exists_, iterdir, siblings_of, is_file in *.
  destruct (lookup_path fs (parent (target_of fp file_part))) as [[|children]|];
    [discriminate | |]; cbn [bind];
    rewrite (new_issue_ok cr fp rel n target _ Hrel); reflexivity.
Qed.

(** A missing target whose parent is a regular file stops the resolver:
    listing the parent raises [NotADirectoryError]. *)
Lemma missing_target_below_file fs cr fp n target acc file_part anchor_part :
  cross_document target ->
  split_target target = (file_part, anchor_part) ->
  exists_ fs (target_of fp file_part) = false ->
  is_file fs (parent (target_of fp file_part)) = true ->
  check_link fs cr fp n target acc = Raise NotADirectoryError.
Proof.
  intros Hc Hs Hx Hf.
  rewrite (check_link_missing fs cr fp n target acc file_part anchor_part Hc Hs Hx).
  rewrite (is_file_exists fs _ Hf). unfold iterdir, is_file in *.
  destruct (lookup_path fs (parent (target_of fp file_part))) as [[|]|];
    [reflexivity | discriminate..].
Qed.

(** C4.  The claim, that every cross-document reference to a target that
    does not exist yields exactly one Issue "File not found" or "Directory
    not found", fails on the code for a target below a regular file: the
    reference [b.md/c.md], next to the file [b.md], does not exist, its
    parent exists, and listing that parent raises [NotADirectoryError], so
    that [validate_file] returns no Issue list at all. *)
Theorem missing_target_below_file_raises :
  doc_links doc_through_file = [(1, lit "b.md/c.md")]
  /\ is_external (lit "b.md/c.md") = false
  /\ startswith (lit "#") (lit "b.md/c.md") = false
  /\ split_target (lit "b.md/c.md") = (lit "b.md/c.md", None)
  /\ target_of a_md (lit "b.md/c.md") = [lit "repo"; lit "docs"; lit "b.md"; lit "c.md"]
  /\ exists_ (tree doc_through_file) (target_of a_md (lit "b.md/c.md")) = false
  /\ exists_ (tree doc_through_file) (parent (target_of a_md (lit "b.md/c.md"))) = true
  /\ iterdir (tree doc_through_file) (parent (target_of a_md (lit "b.md/c.md")))
     = Raise NotADirectoryError
  /\ validate_file (tree doc_through_file) codex a_md docs = Raise NotADirectoryError.
Proof. repeat split; vm_compute; reflexivity. Qed.

(** Away from that case the claim holds: the sample document with three
    missing targets gets one Issue for each. *)
Example missing_targets_sample :
  validate_file (tree doc_missing_file) codex a_md docs
  = Ok [ mkIssue (lit "docs/a.md") 1 (lit "other.md") (lit "File not found");
         mkIssue (lit "docs/a.md") 1 (lit "nodir/") (lit "Directory not found");
         mkIssue (lit "docs/a.md") 1 (lit "b")
           (lit "File not found (did you mean `b.md`?)") ].
Proof. vm_compute. reflexivity. Qed.

(** ** The substitutions of steps 2 to 5 *)

Lemma rep_prev q g (k : cont) :
  (forall prev prev' s pos cs, k prev s pos cs = k prev' s pos cs) ->
  forall s lo hi prev prev' pos cs,
  rep q g k lo hi prev s pos cs = rep q g k lo hi prev' s pos cs.
Proof.
  intros Hk s lo hi prev prev' pos cs.
  destruct s as [|c s]; cbn [rep]; rewrite (Hk prev prev'); reflexivity.
Qed.

(** Only [^] looks at the character before the position. *)
Lemma match_here_prev re :
  bol_free re = true ->
  forall prev prev' s pos cs, match_here re prev s pos cs = match_here re prev' s pos cs.
Proof.
  induction re as [|n re IH]; intros Hb prev prev' s pos cs; [reflexivity|].
  cbn [bol_free forallb] in Hb. apply andb_prop in Hb as [Hn Hb].
  destruct n as [q|q lo hi g|g|g| |]; cbn [match_here].
  - reflexivity.
  - apply rep_prev. exact (IH Hb).
  - apply IH, Hb.
  - apply IH, Hb.
  - discriminate.
  - destruct (at_eol s); [apply IH, Hb | reflexivity].
Qed.

Lemma pieces_skip re s :
  forall k prev, k <= length s ->
  exists prev', pieces re prev s k = pieces re prev' (drop k s) 0.
Proof.
  induction s as [|c s IH]; intros k prev Hk.
  - destruct k; [exists prev; reflexivity | simpl in Hk; lia].
  - destruct k as [|k]; [exists prev; reflexivity|].
    cbn [pieces drop]. apply IH. simpl in Hk. lia.
Qed.

(** Substituting group 1 for the matches of a pattern collapses the
    constructs the pattern stands for. *)
Lemma render_collapse re construct :
  implements re construct ->
  forall n s prev, length s <= n ->
  render [TGroup 1] (pieces re prev s 0) = collapse construct n s.
Proof.
  intros Hi n. induction n as [|n IH]; intros s prev Hn.
  - destruct s; [reflexivity | simpl in Hn; lia].
  - cbn [collapse]. pose proof (Hi prev s) as Hs.
    destruct (construct s) as [[inner rest]|].
    + destruct Hs as (k & cs & Hm & Hk & Hg & Hd).
      destruct s as [|c s]; [simpl in Hk; lia|].
      cbn [pieces]. rewrite Hm. cbn [render flat_map expand]. rewrite app_nil_r, Hg.
      f_equal. cbn [drop] in Hd.
      destruct (pieces_skip re s k (Some c)) as [prev' Hp]; [simpl in Hk; lia|].
      fold (render [TGroup 1] (pieces re (Some c) s k)).
      rewrite Hp, Hd. apply IH. rewrite <- Hd, length_drop. simpl in Hn. lia.
    + destruct s as [|c s]; [reflexivity|].
      cbn [pieces]. rewrite Hs. cbn [render flat_map app]. f_equal.
      apply IH. simpl in Hn. lia.
Qed.

Lemma sub_collapse re construct s :
  implements re construct -> sub re [TGroup 1] s = collapse_all construct s.
Proof.
  intros Hi. rewrite sub_render. apply (render_collapse re construct Hi). reflexivity.
Qed.

Lemma bol_free_literal marker : bol_free (literal marker) = true.
Proof. induction marker as [|a marker IH]; [reflexivity | exact IH]. Qed.

(** Literal characters at the head of a pattern. *)
Lemma match_literal marker re :
  bol_free re = true ->
  forall s prev pos cs,
  match_here (literal marker ++ re) prev s pos cs
  = if startswith marker s
    then match_here re prev (drop (length marker) s) (pos + length marker) cs
    else None.
Proof.
  intros Hb. induction marker as [|a marker IH]; intros s prev pos cs.
  - cbn [literal map app startswith length drop]. rewrite Nat.add_0_r. reflexivity.
  - cbn [literal map app match_here]. destruct s as [|c s]; [reflexivity|].
    cbn [startswith]. unfold is_char at 1. destruct (Ascii.eqb a c); [|reflexivity].
    fold (literal marker). rewrite IH. cbn [andb length drop].
    destruct (startswith marker s); [|reflexivity].
    rewrite Nat.add_succ_r. apply (match_here_prev re Hb).
Qed.

Lemma match_closer marker s prev pos cs :
  match_here (Close 1 :: literal marker) prev s pos cs
  = if startswith marker s
    then Some (pos + length marker, mark_close 1 pos cs)
    else None.
Proof.
  cbn [match_here]. rewrite <- (app_nil_r (literal marker)).
  rewrite (match_literal marker [] eq_refl). reflexivity.
Qed.

(** The lazy repetition of a span, once its first character is taken. *)
Lemma rep_lazy_zero marker s :
  forall prev pos cs,
  rep dot false (match_here (Close 1 :: literal marker)) 0 None prev s pos cs
  = if startswith marker s
    then Some (pos + length marker, mark_close 1 pos cs)
    else match span_body marker s with
         | Some (inner, rest) =>
             Some (pos + length inner + length marker,
                   mark_close 1 (pos + length inner) cs)
         | None => None
         end.
Proof.
  induction s as [|c s IH]; intros prev pos cs.
  - cbn [rep Nat.eqb span_body]. rewrite match_closer.
    destruct (startswith marker []); reflexivity.
  - cbn [rep Nat.eqb span_body]. rewrite match_closer.
    destruct (startswith marker (c :: s)); [reflexivity|].
    destruct (dot c); [|reflexivity]. cbn [andb has_room pred less_room].
    rewrite IH. destruct (startswith marker s).
    + cbn [length]. do 2 f_equal; [lia | f_equal; lia].
    + destruct (span_body marker s) as [[inner rest]|]; [|reflexivity].
      cbn [length]. do 2 f_equal; [lia | f_equal; lia].
Qed.

Lemma rep_lazy_one marker s prev pos cs :
  rep dot false (match_here (Close 1 :: literal marker)) 1 None prev s pos cs
  = match span_body marker s with
    | Some (inner, rest) =>
        Some (pos + length inner + length marker,
              mark_close 1 (pos + length inner) cs)
    | None => None
    end.
Proof.
  destruct s as [|c s]; [reflexivity|].
  cbn [rep Nat.eqb span_body]. destruct (dot c); [|reflexivity].
  cbn [andb has_room pred less_room]. rewrite rep_lazy_zero.
  destruct (startswith marker s).
  - cbn [length]. do 2 f_equal; [lia | f_equal; lia].
  - destruct (span_body marker s) as [[inner rest]|]; [|reflexivity].
    cbn [length]. do 2 f_equal; [lia | f_equal; lia].
Qed.

(** What [span_body] finds: an inner text, not empty, then the marker. *)
Lemma span_body_spec marker s inner rest :
  span_body marker s = Some (inner, rest) ->
  s = inner ++ marker ++ rest /\ 1 <= length inner.
Proof.
  revert inner rest. induction s as [|c s IH]; intros inner rest; [discriminate|].
  cbn [span_body]. destruct (dot c); [|discriminate].
  destruct (startswith marker s) eqn:Hm.
  - intros H. injection H as <- <-. split; [|simpl; lia].
    cbn [app]. f_equal. apply startswith_drop, Hm.
  - destruct (span_body marker s) as [[inner' rest']|]; [|discriminate].
    intros H. injection H as <- <-. destruct (IH inner' rest' eq_refl) as [-> Hl].
    split; [reflexivity | simpl; lia].
Qed.

Lemma match_span_tail marker prev s pos cs :
  match_here ([Open 1; plus_lazy dot; Close 1] ++ literal marker) prev s pos cs
  = rep dot false (match_here (Close 1 :: literal marker)) 1 None prev s pos
      (mark_open 1 pos cs).
Proof. reflexivity. Qed.

(** The pattern of a marker's spans matches where [span_at] finds a span. *)
Lemma span_regex_implements marker : implements (span_regex marker) (span_at marker).
Proof.
  intros prev s. unfold span_at, span_regex.
  rewrite match_literal by exact (bol_free_literal marker).
  destruct (startswith marker s) eqn:Hm; [|reflexivity].
  rewrite match_span_tail, rep_lazy_one.
  destruct (span_body marker (drop (length marker) s)) as [[inner rest]|] eqn:Hb;
    [|reflexivity].
  apply span_body_spec in Hb as [Hd Hl].
  pose proof (startswith_drop marker s Hm) as Hs. rewrite Hd in Hs.
  destruct (length inner) as [|li] eqn:Eli; [lia|].
  exists (length marker + li + length marker), (mark_close 1 (0 + length marker + S li)
            (mark_open 1 (0 + length marker) no_captures)).
  split; [f_equal; f_equal; lia|].
  assert (Hlen : length s = length marker + S li + (length marker + length rest)).
  { rewrite Hs at 1. rewrite !length_app, Eli. lia. }
  split; [lia|]. split.
  - unfold group.
    cbn [m_caps m_text mark_close mark_open opened closed assoc Nat.eqb Nat.add].
    replace (length marker + S li - length marker) with (length inner) by lia.
    rewrite Hs at 1. rewrite drop_app_length. apply take_app_length.
  - replace (S (length marker + li + length marker))
      with (length marker + (length inner + length marker)) by lia.
    rewrite Hs at 1.
    rewrite <- !drop_drop, drop_app_length, drop_app_length, drop_app_length. reflexivity.
Qed.

Lemma run_stop q s c rest : drop (run q s) s = c :: rest -> q c = false.
Proof.
  induction s as [|a s IH]; [discriminate|]. cbn [run].
  destruct (q a) eqn:Ha; [exact IH|]. cbn [drop]. intros H. injection H as -> _. exact Ha.
Qed.

(** A greedy repetition of a class takes the whole run when the rest of the
    pattern cannot start inside the class. *)
Lemma rep_greedy_stop q (K : cont) :
  (forall prev c s pos cs, q c = true -> K prev (c :: s) pos cs = None) ->
  (forall prev prev' s pos cs, K prev s pos cs = K prev' s pos cs) ->
  forall s lo prev pos cs,
  rep q true K lo None prev s pos cs
  = if Nat.leb lo (run q s)
    then K prev (drop (run q s) s) (pos + run q s) cs
    else None.
Proof.
  intros Hq Hp. induction s as [|c s IH]; intros lo prev pos cs.
  - cbn [rep run drop]. rewrite Nat.add_0_r. destruct lo; reflexivity.
  - cbn [rep run]. destruct (q c) eqn:Hc.
    + cbn [andb has_room less_room drop]. rewrite IH.
      rewrite (Hp (Some c) prev), (Hq prev c s pos cs Hc), Nat.add_succ_r.
      destruct lo as [|lo]; cbn [pred Nat.leb Nat.eqb Nat.add].
      * destruct (K prev (drop (run q s) s) (S (pos + run q s)) cs); reflexivity.
      * destruct (Nat.leb lo (run q s)); [|reflexivity].
        destruct (K prev (drop (run q s) s) (S (pos + run q s)) cs); reflexivity.
    + cbn [andb drop]. rewrite Nat.add_0_r. destruct lo; reflexivity.
Qed.

Lemma not_char_is_char a c : not_char a c = negb (is_char a c).
Proof. reflexivity. Qed.

Lemma link_tail_stop prev c s pos cs :
  not_char "]" c = true -> match_here link_tail prev (c :: s) pos cs = None.
Proof.
  rewrite not_char_is_char. intros H. cbn [link_tail match_here].
  destruct (is_char "]" c); [discriminate | reflexivity].
Qed.

Lemma paren_stop prev c s pos cs :
  not_char ")" c = true -> match_here [Chr (is_char ")")] prev (c :: s) pos cs = None.
Proof.
  rewrite not_char_is_char. intros H. cbn [match_here].
  destruct (is_char ")" c); [discriminate | reflexivity].
Qed.

Lemma match_link_head prev c s :
  match_here INLINE_LINK prev (c :: s) 0 no_captures
  = if is_char "[" c
    then rep (not_char "]") true (match_here link_tail) 1 None (Some c) s 1
           (mark_open 1 1 no_captures)
    else None.
Proof. reflexivity. Qed.

Lemma match_link_tail prev c c2 s pos cs :
  match_here link_tail prev (c :: c2 :: s) pos cs
  = if is_char "]" c
    then if is_char "(" c2
         then rep (not_char ")") true (match_here [Chr (is_char ")")]) 1 None
                (Some c2) s (S (S pos)) (mark_close 1 pos cs)
         else None
    else None.
Proof. reflexivity. Qed.

(** The inline-link pattern matches where [link_at] finds a construct. *)
Lemma inline_link_implements : implements INLINE_LINK link_at.
Proof.
  intros prev s. unfold link_at.
  destruct s as [|c s1]; [reflexivity|].
  rewrite match_link_head. destruct (is_char "[" c); [|reflexivity].
  rewrite (rep_greedy_stop (not_char "]") (match_here link_tail))
    by first [ intros ? ? ? ? ? H; exact (link_tail_stop _ _ _ _ _ H)
             | intros; apply match_here_prev; reflexivity ].
  unfold up_to.
  destruct (run (not_char "]") s1) as [|n1] eqn:R1; [reflexivity|].
  cbn [Nat.leb].
  destruct (drop (S n1) s1) as [|c1 t1] eqn:D1; [reflexivity|].
  assert (H1 : is_char "]" c1 = true).
  { pose proof (run_stop (not_char "]") s1 c1 t1) as H. rewrite R1 in H.
    specialize (H D1). rewrite not_char_is_char in H.
    destruct (is_char "]" c1); [reflexivity | discriminate]. }
  destruct t1 as [|c2 s2].
  { cbn [link_tail match_here]. rewrite H1. reflexivity. }
  rewrite match_link_tail, H1.
  destruct (is_char "(" c2); [|reflexivity].
  rewrite (rep_greedy_stop (not_char ")") (match_here [Chr (is_char ")")]))
    by first [ intros ? ? ? ? ? H; exact (paren_stop _ _ _ _ _ H)
             | intros; apply match_here_prev; reflexivity ].
  destruct (run (not_char ")") s2) as [|n2] eqn:R2; [reflexivity|].
  cbn [Nat.leb].
  destruct (drop (S n2) s2) as [|c3 rest] eqn:D2; [reflexivity|].
  assert (H3 : is_char ")" c3 = true).
  { pose proof (run_stop (not_char ")") s2 c3 rest) as H. rewrite R2 in H.
    specialize (H D2). rewrite not_char_is_char in H.
    destruct (is_char ")" c3); [reflexivity | discriminate]. }
  cbn [match_here]. rewrite H3.
  pose proof (f_equal length D1) as L1. pose proof (f_equal length D2) as L2.
  rewrite length_drop in L1, L2. cbn [length] in L1, L2.
  eexists _, _. split; [reflexivity|].
  split; [cbn [length]; lia|]. split.
  - unfold group. cbn [m_caps m_text mark_close mark_open opened closed assoc Nat.eqb].
    replace (1 + S n1 - 1) with (S n1) by lia. reflexivity.
  - cbn [drop].
    replace (S (S (1 + S n1)) + S n2) with (S n1 + (2 + (S n2 + 1))) by lia.
    rewrite <- !drop_drop, D1. change (drop 2 (c1 :: c2 :: s2)) with s2.
    rewrite D2. reflexivity.
Qed.

(** ** The nine steps *)

(** C10.  [slugify_heading] is the nine-step normalization of the
    specification, in its order: trim white space, collapse bold spans,
    italic spans, code spans and inline links to their text, turn to lower
    case, keep only word characters, white space and hyphens, turn every run
    of white space into one hyphen, trim hyphens; and the four sample
    headings have the slugs the specification gives. *)
Theorem slugify_heading_nine_steps :
  (forall h, slugify_heading h = slugify_spec h)
  /\ slugify_heading (lit "Getting Started") = lit "getting-started"
  /\ slugify_heading (lit "What's New?") = lit "whats-new"
  /\ slugify_heading (lit "") = lit ""
  /\ slugify_heading (lit "**Bold** and *Italic* and `code`")
     = lit "bold-and-italic-and-code".
Proof.
  split; [|repeat split; vm_compute; reflexivity].
  intros h. unfold slugify_heading, slugify_spec.
  change BOLD with (span_regex (lit "**")).
  change ITALIC with (span_regex (lit "*")).
  change CODE with (span_regex (lit "`")).
  rewrite !(sub_collapse _ _ _ (span_regex_implements _)).
  rewrite (sub_collapse _ _ _ inline_link_implements).
  rewrite sub_spaces, sub_punct. unfold lower.
  do 2 f_equal. apply List.filter_ext. intros c. unfold not_slug_class.
  apply negb_involutive.
Qed.

(** * Further properties of the resolver *)

(** ** References that are never reported *)

(** X1.  A reference whose target begins with [http://], [https://] or
    [mailto:] never produces an Issue, whatever the file system holds. *)
Theorem external_reference_ignored
    (fs : entry) (cr fp sr : path) (content : str)
    (before : list (nat * str)) (n : nat) (target : str) (after : list (nat * str))
    (acc : list Issue) :
  reaches fs cr fp content before n target after acc ->
  is_external target = true ->
  validate_file fs cr fp sr = issues_around fs cr fp acc [] after.
Proof.
  intros Hr He.
  apply (validate_file_silent fs cr fp sr content before n target after acc Hr).
  unfold check_link. rewrite He. reflexivity.
Qed.

Lemma external_reference_ignored_witness :
  validate_file (tree doc_external) codex a_md docs
  = issues_around (tree doc_external) codex a_md [] []
      [(1, lit "https://nowhere.invalid"); (1, lit "mailto:a@b")].
Proof.
  refine (external_reference_ignored (tree doc_external) codex a_md docs doc_external
            [] 1 (lit "http://nowhere.invalid/x.md")
            [(1, lit "https://nowhere.invalid"); (1, lit "mailto:a@b")] [] _ _).
  - repeat split; vm_compute; reflexivity.
  - reflexivity.
Defined.

Lemma split_target_plain t :
  contains t (lit "#") = false -> split_target t = (t, None).
Proof. intros H. unfold split_target. rewrite H. reflexivity. Qed.

(** X2.  A cross-document reference without [#] whose target exists, be
    it a file or a directory, produces no Issue. *)
Theorem existing_target_accepted
    (fs : entry) (cr fp sr : path) (content : str)
    (before : list (nat * str)) (n : nat) (target : str) (after : list (nat * str))
    (acc : list Issue) :
  reaches fs cr fp content before n target after acc ->
  cross_document target ->
  contains target (lit "#") = false ->
  exists_ fs (target_of fp target) = true ->
  validate_file fs cr fp sr = issues_around fs cr fp acc [] after.
Proof.
  intros Hr Hc Hh Hx.
  apply (validate_file_silent fs cr fp sr content before n target after acc Hr).
  rewrite (check_link_found fs cr fp n target acc target None Hc
             (split_target_plain target Hh) Hx).
  reflexivity.
Qed.

Lemma existing_target_accepted_witness :
  validate_file (tree doc_plain_links) codex a_md docs
  = issues_around (tree doc_plain_links) codex a_md [] []
      [(1, lit "sub/"); (1, lit "..")].
Proof.
  refine (existing_target_accepted (tree doc_plain_links) codex a_md docs doc_plain_links
            [] 1 (lit "b.md") [(1, lit "sub/"); (1, lit "..")] [] _ _ _ _).
  - repeat split; vm_compute; reflexivity.
  - split; reflexivity.
  - reflexivity.
  - reflexivity.
Defined.

(** X3.  A cross-document reference with a non-empty anchor part into an
    existing regular file produces no Issue when some heading of that file
    slugifies to the anchor part. *)
Theorem cross_document_anchor_found
    (fs : entry) (cr fp sr : path) (content : str)
    (before : list (nat * str)) (n : nat) (target : str) (after : list (nat * str))
    (acc : list Issue) (file_part anchor : str) :
  reaches fs cr fp content before n target after acc ->
  cross_document target ->
  split_target target = (file_part, Some anchor) ->
  is_file fs (target_of fp file_part) = true ->
  anchor <> lit "" ->
  (exists h, h ∈ headings fs (target_of fp file_part) /\ slugify_heading h = anchor) ->
  validate_file fs cr fp sr = issues_around fs cr fp acc [] after.
Proof.
  intros Hr Hc Hs Hf Hne Hex.
  apply (validate_file_silent fs cr fp sr content before n target after acc Hr).
  rewrite (check_link_found fs cr fp n target acc file_part (Some anchor) Hc Hs
             (is_file_exists fs _ Hf)).
  rewrite Hf. destruct anchor as [|c anchor]; [contradiction Hne; reflexivity|].
  cbn [truthy andb default]. rewrite bool_decide_eq_false_2; [reflexivity|].
  intros Hnot. apply Hnot, extract_anchors_elem. split; [discriminate | exact Hex].
Qed.

Lemma cross_document_anchor_found_witness :
  validate_file (tree doc_anchor_links) codex a_md docs
  = issues_around (tree doc_anchor_links) codex a_md
      [mkIssue (lit "docs/a.md") 1 (lit "b.md#nope")
         (lit "Anchor `#nope` not found in target file")]
      [] [(1, lit "sub/#setup")].
Proof.
  refine (cross_document_anchor_found (tree doc_anchor_links) codex a_md docs
            doc_anchor_links [(1, lit "b.md#nope")] 1 (lit "b.md#setup")
            [(1, lit "sub/#setup")] _ (lit "b.md") (lit "setup") _ _ _ _ _ _).
  - repeat split; vm_compute; reflexivity.
  - split; reflexivity.
  - reflexivity.
  - reflexivity.
  - discriminate.
  - exists (lit "Setup"). split; [vm_compute; left | vm_compute; reflexivity].
Defined.

(** ** What the list of issues looks like *)

Lemma scan_links_sublist fs cr fp refs :
  forall issues out,
  scan_links fs cr fp refs issues = Ok out ->
  exists more, out = issues ++ more /\ issue_ref <$> more `sublist_of` refs.
Proof.
  induction refs as [|[n t] refs IH]; intros issues out; cbn [scan_links].
  - intros H. injection H as <-. exists []. rewrite app_nil_r. split; [reflexivity|].
    constructor.
  - destruct (check_link fs cr fp n t issues) as [mid|e] eqn:E; cbn [bind]; [|discriminate].
    intros H. apply IH in H as (more & -> & Hsub).
    apply check_link_cases in E as [-> | (reason & i & Hn & ->)].
    + exists more. split; [reflexivity | apply sublist_cons, Hsub].
    + exists (i :: more). rewrite <- app_assoc. split; [reflexivity|].
      apply new_issue_inv in Hn as (rel & _ & ->).
      cbn [fmap list_fmap issue_ref line link]. apply sublist_skip, Hsub.
Qed.

Lemma StronglySorted_sublist {A} (R : relation A) (l1 l2 : list A) :
  l1 `sublist_of` l2 -> StronglySorted R l2 -> StronglySorted R l1.
Proof.
  induction 1 as [|x l1 l2 Hs IH|x l1 l2 Hs IH]; intros H2.
  - constructor.
  - apply StronglySorted_inv in H2 as [H2 Hx]. constructor; [apply IH, H2|].
    apply List.Forall_forall. intros y Hy. rewrite List.Forall_forall in Hx.
    apply Hx. apply list_elem_of_In. apply list_elem_of_In in Hy.
    exact (elem_of_sublist _ _ _ Hy Hs).
  - apply StronglySorted_inv in H2 as [H2 _]. apply IH, H2.
Qed.

Lemma sublist_map {A B} (f : A -> B) (l1 l2 : list A) :
  l1 `sublist_of` l2 -> f <$> l1 `sublist_of` f <$> l2.
Proof.
  induction 1 as [|x l1 l2 Hs IH|x l1 l2 Hs IH]; cbn [fmap list_fmap].
  - constructor.
  - apply sublist_skip, IH.
  - apply sublist_cons, IH.
Qed.

Lemma line_links_lines k l : Forall (fun r => fst r = k) (line_links k l).
Proof.
  unfold line_links. destruct (is_fence l); [constructor|].
  apply List.Forall_forall. intros r Hr. apply List.in_map_iff in Hr as (m & <- & _).
  reflexivity.
Qed.

(** The references of a document come with ascending line numbers. *)
Lemma numbered_links_sorted lines :
  forall k,
  StronglySorted le (fst <$> numbered_links lines k)
  /\ Forall (fun r => k <= fst r) (numbered_links lines k).
Proof.
  induction lines as [|l lines IH]; intros k; cbn [numbered_links].
  - split; constructor.
  - destruct (IH (S k)) as [IHs IHf]. pose proof (line_links_lines k l) as Hl.
    split.
    + rewrite fmap_app. apply StronglySorted_app. split; [|split; [|exact IHs]].
      * intros x y Hx Hy.
        apply list_elem_of_fmap in Hx as (rx & -> & Hx).
        apply list_elem_of_fmap in Hy as (ry & -> & Hy).
        rewrite List.Forall_forall in Hl, IHf.
        apply list_elem_of_In in Hx, Hy.
        rewrite (Hl rx Hx). specialize (IHf ry Hy). lia.
      * induction Hl as [|r rs Hr Hrs IHl]; [constructor|].
        cbn [fmap list_fmap]. constructor; [exact IHl|].
        apply List.Forall_forall. intros y Hy. apply List.in_map_iff in Hy as (r' & <- & Hr').
        rewrite List.Forall_forall in Hrs. rewrite Hr, (Hrs r' Hr'). reflexivity.
    + apply Forall_app. split.
      * eapply Forall_impl; [exact Hl|]. intros r ->. reflexivity.
      * eapply Forall_impl; [exact IHf|]. intros r Hr. simpl in Hr. lia.
Qed.

(** X4.  The Issues that [validate_file] returns name references of the
    document, each at most once and in scan order: their pairs of line
    number and raw target form a subsequence of the document's references,
    so there are no more Issues than references and the line numbers of the
    Issues ascend, starting from 1. *)
Theorem issues_follow_references
    (fs : entry) (cr fp sr : path) (issues : list Issue) :
  validate_file fs cr fp sr = Ok issues ->
  issue_ref <$> issues `sublist_of` references fs fp
  /\ length issues <= length (references fs fp)
  /\ StronglySorted le (line <$> issues)
  /\ Forall (fun i => 1 <= line i) issues.
Proof.
  intros H. unfold validate_file in H. unfold references.
  destruct (read_text fs fp) as [content|].
  - rewrite scan_lines_links in H.
    apply scan_links_sublist in H as (more & -> & Hsub). cbn [app].
    fold (doc_links content) in Hsub.
    destruct (numbered_links_sorted (split_on newline content) 1) as [Hs Hf].
    fold (doc_links content) in Hs, Hf.
    split; [exact Hsub|].
    split; [rewrite <- (length_fmap issue_ref); apply sublist_length, Hsub|].
    split.
    + replace (line <$> more) with (fst <$> (issue_ref <$> more))
        by (rewrite <- list_fmap_compose; reflexivity).
      apply (StronglySorted_sublist le _ (fst <$> doc_links content)); [|exact Hs].
      apply sublist_map, Hsub.
    + apply List.Forall_forall. intros i Hi. rewrite List.Forall_forall in Hf.
      apply (Hf (issue_ref i)). apply list_elem_of_In.
      apply (elem_of_sublist _ _ _ (list_elem_of_fmap_2 issue_ref _ _
               (proj2 (list_elem_of_In _ _) Hi)) Hsub).
  - injection H as <-. repeat split; constructor.
Qed.

Lemma issues_follow_references_witness :
  issue_ref <$> [mkIssue (lit "docs/a.md") 2 (lit "#missing-anchor")
                   (lit "Anchor not found in file")]
    `sublist_of` references (tree doc_missing_anchor) a_md
  /\ length [mkIssue (lit "docs/a.md") 2 (lit "#missing-anchor")
               (lit "Anchor not found in file")]
     <= length (references (tree doc_missing_anchor) a_md)
  /\ StronglySorted le
       (line <$> [mkIssue (lit "docs/a.md") 2 (lit "#missing-anchor")
                    (lit "Anchor not found in file")])
  /\ Forall (fun i => 1 <= line i)
       [mkIssue (lit "docs/a.md") 2 (lit "#missing-anchor") (lit "Anchor not found in file")].
Proof.
  apply (issues_follow_references (tree doc_missing_anchor) codex a_md docs).
  vm_compute. reflexivity.
Defined.

Lemma suggest_forms nm sibs :
  suggest nm sibs = lit ""
  \/ exists sib, suggest nm sibs = lit " (did you mean `" ++ sib ++ lit "`?)".
Proof.
  induction sibs as [|s sibs IH]; [left; reflexivity|].
  cbn [suggest]. destruct (contains s nm || contains nm s); [|exact IH].
  right. exists s. reflexivity.
Qed.

(** A reference adds nothing, or one Issue whose reason fits its target. *)
Lemma check_link_reasons fs cr fp n t issues out :
  check_link fs cr fp n t issues = Ok out ->
  out = issues
  \/ exists rel reason,
       out = issues ++ [mkIssue (str_of_rel rel) n t reason] /\ reason_kind t reason.
Proof.
  unfold check_link.
  destruct (is_external t) eqn:He; [intros H; injection H as <-; left; reflexivity|].
  destruct (startswith (lit "#") t) eqn:Ha.
  { destruct (bool_decide _); [|intros H; injection H as <-; left; reflexivity].
    destruct (new_issue cr fp n t _) as [i|e] eqn:E; cbn [bind]; [|discriminate].
    intros H; injection H as <-. right.
    apply new_issue_inv in E as (rel & _ & ->). exists rel. eexists.
    split; [reflexivity|]. left. split; [exact Ha | reflexivity]. }
  assert (Hc : cross_document t) by (split; assumption).
  destruct (split_target t) as [file_part anchor_part] eqn:Hs.
  destruct (negb _).
  { destruct (if exists_ fs _ then _ else _) as [sg|e] eqn:Hsg; cbn [bind]; [|discriminate].
    destruct (new_issue cr fp n t _) as [i|e] eqn:E; cbn [bind]; [|discriminate].
    intros H; injection H as <-. right.
    apply new_issue_inv in E as (rel & _ & ->). exists rel. eexists.
    split; [reflexivity|]. right. left. split; [exact Hc|].
    exists sg. rewrite Hs. split; [reflexivity|].
    destruct (exists_ fs _).
    - destruct (iterdir fs _) as [sibs|e]; cbn [bind] in Hsg; [|discriminate].
      injection Hsg as <-. apply suggest_forms.
    - injection Hsg as <-. left. reflexivity. }
  destruct (truthy anchor_part && is_file fs _) eqn:Ht;
    [|intros H; injection H as <-; left; reflexivity].
  destruct (bool_decide _); [|intros H; injection H as <-; left; reflexivity].
  destruct (new_issue cr fp n t _) as [i|e] eqn:E; cbn [bind]; [|discriminate].
  intros H; injection H as <-. right.
  apply new_issue_inv in E as (rel & _ & ->). exists rel. eexists.
  split; [reflexivity|]. right. right. split; [exact Hc|].
  destruct anchor_part as [[|c anchor]|]; [discriminate| |discriminate].
  exists (c :: anchor). rewrite Hs. split; [reflexivity|]. split; [discriminate | reflexivity].
Qed.

Lemma scan_links_reasons fs cr fp refs :
  forall issues out,
  Forall (fun i => reason_kind (link i) (issue i)) issues ->
  scan_links fs cr fp refs issues = Ok out ->
  Forall (fun i => reason_kind (link i) (issue i)) out.
Proof.
  induction refs as [|[n t] refs IH]; intros issues out Hi; cbn [scan_links].
  - intros H; injection H as <-. exact Hi.
  - destruct (check_link fs cr fp n t issues) as [mid|e] eqn:E; cbn [bind]; [|discriminate].
    apply IH. apply check_link_reasons in E as [-> | (rel & reason & -> & Hk)]; [exact Hi|].
    apply Forall_app. split; [exact Hi|]. constructor; [exact Hk | constructor].
Qed.

(** X5.  The reason of every Issue is fixed by the form of its target.
    For a target that begins with [#] it is "Anchor not found in file".
    For any other target it is "File not found", or "Directory not found"
    when the file part ends with [/], alone or followed by
    " (did you mean `<sibling>`?)"; or it is
    "Anchor `#<anchor>` not found in target file" with the non-empty
    anchor part of the target. *)
Theorem issue_reason_fits_target
    (fs : entry) (cr fp sr : path) (issues : list Issue) :
  validate_file fs cr fp sr = Ok issues ->
  Forall (fun i => reason_kind (link i) (issue i)) issues.
Proof.
  intros H. unfold validate_file in H.
  destruct (read_text fs fp) as [content|].
  - rewrite scan_lines_links in H.
    exact (scan_links_reasons fs cr fp _ [] issues (List.Forall_nil _) H).
  - injection H as <-. constructor.
Qed.

Lemma issue_reason_fits_target_witness :
  Forall (fun i => reason_kind (link i) (issue i))
         [ mkIssue (lit "docs/a.md") 1 (lit "other.md") (lit "File not found");
           mkIssue (lit "docs/a.md") 1 (lit "nodir/") (lit "Directory not found");
           mkIssue (lit "docs/a.md") 1 (lit "b")
             (lit "File not found (did you mean `b.md`?)") ].
Proof.
  apply (issue_reason_fits_target (tree doc_missing_file) codex a_md docs).
  vm_compute. reflexivity.
Defined.

(** ** When the resolver returns *)

Lemma check_link_returns fs cr fp n t issues rel :
  relative_to fp cr = Ok rel ->
  (cross_document t ->
   is_file fs (parent (target_of fp (fst (split_target t)))) = false) ->
  exists out, check_link fs cr fp n t issues = Ok out.
Proof.
  intros Hrel Hp. unfold check_link.
  destruct (is_external t) eqn:He; [eexists; reflexivity|].
  destruct (startswith (lit "#") t) eqn:Ha.
  { destruct (bool_decide _); [|eexists; reflexivity].
    rewrite (new_issue_ok cr fp rel n t _ Hrel). eexists; reflexivity. }
  specialize (Hp (conj He Ha)).
  destruct (split_target t) as [file_part anchor_part]. cbn [fst] in Hp.
  fold (target_of fp file_part).
  destruct (negb _).
  { unfold exists_, iterdir, is_file in *.
    destruct (lookup_path fs (parent (target_of fp file_part))) as [[|children]|];
      [discriminate | |]; cbn [bind];
      rewrite (new_issue_ok cr fp rel n t _ Hrel); eexists; reflexivity. }
  destruct (truthy anchor_part && is_file fs _); [|eexists; reflexivity].
  destruct (bool_decide _); [|eexists; reflexivity].
  rewrite (new_issue_ok cr fp rel n t _ Hrel). eexists; reflexivity.
Qed.

Lemma scan_links_returns fs cr fp rel refs :
  relative_to fp cr = Ok rel ->
  (forall n t, (n, t) ∈ refs -> cross_document t ->
     is_file fs (parent (target_of fp (fst (split_target t)))) = false) ->
  forall issues, exists out, scan_links fs cr fp refs issues = Ok out.
Proof.
  intros Hrel. induction refs as [|[n t] refs IH]; intros Hp issues; cbn [scan_links].
  - eexists; reflexivity.
  - pose proof (Hp n t (list_elem_of_here _ _)) as Hq.
    destruct (check_link_returns fs cr fp n t issues rel Hrel Hq) as [mid ->].
    cbn [bind]. apply IH. intros n' t' Hin. apply (Hp n' t'). right. exact Hin.
Qed.



(** ** The suggestion *)

Lemma similar_contains nm sib :
  contains sib nm || contains nm sib = true <-> similar nm sib.
Proof.
  unfold similar, substring. rewrite orb_true_iff, !contains_substring. reflexivity.
Qed.

Lemma not_similar_contains nm sib :
  contains sib nm || contains nm sib = false <-> ~ similar nm sib.
Proof.
  rewrite <- similar_contains. destruct (contains sib nm || contains nm sib); split;
    [discriminate | intros H; contradiction H; reflexivity | discriminate | reflexivity].
Qed.



(** ** The file part and the anchor part *)

Lemma split_hash_spec s :
  existsb (Ascii.eqb "#") s = true ->
  s = fst (split_hash s) ++ lit "#" ++ snd (split_hash s)
  /\ existsb (Ascii.eqb "#") (fst (split_hash s)) = false.
Proof.
  induction s as [|c s IH]; [discriminate|].
  cbn [existsb split_hash]. destruct (Ascii.eqb_spec "#" c) as [<-|Hne].
  - intros _. split; reflexivity.
  - cbn [orb]. intros H. destruct (IH H) as [IH1 IH2].
    destruct (split_hash s) as [a b]. cbn [fst snd] in *.
    split; [cbn [app]; f_equal; exact IH1|].
    cbn [existsb]. rewrite IH2. destruct (Ascii.eqb_spec "#" c); [contradiction | reflexivity].
Qed.

(** X8.  Splitting a target loses nothing.  A target with a [#] is its
    file part, a [#] and its anchor part, and the file part holds no [#];
    a target without [#] is its file part and has no anchor part. *)
Theorem split_target_round_trip (target : str) :
  match split_target target with
  | (file_part, Some anchor_part) =>
      target = file_part ++ lit "#" ++ anchor_part
      /\ contains file_part (lit "#") = false
  | (file_part, None) =>
      target = file_part /\ contains target (lit "#") = false
  end.
Proof.
  unfold split_target. destruct (contains target (lit "#")) eqn:H.
  - change (lit "#") with ["#"%char] in H. rewrite contains_char in H.
    destruct (split_hash_spec target H) as [H1 H2].
    destruct (split_hash target) as [a b]. cbn [fst snd] in *.
    split; [exact H1|]. change (lit "#") with ["#"%char]. rewrite contains_char. exact H2.
  - split; reflexivity.
Qed.

(** ** The alphabet of slugs and anchors *)

Lemma startswith_lstrip a s : startswith [a] (lstrip (is_char a) s) = false.
Proof.
  pose proof (lstrip_head (is_char a) s) as H.
  destruct (lstrip (is_char a) s) as [|c t]; [reflexivity|].
  cbn [startswith]. unfold is_char in H. rewrite H. reflexivity.
Qed.

Lemma startswith_strip a s : startswith [a] (strip (is_char a) s) = false.
Proof.
  unfold strip. pose proof (lstrip_head (is_char a) s) as H.
  destruct (lstrip (is_char a) s) as [|c t]; [reflexivity|].
  rewrite (rstrip_cons _ c t H). cbn [startswith]. unfold is_char in H. rewrite H.
  reflexivity.
Qed.

Lemma endswith_strip a s : endswith [a] (strip (is_char a) s) = false.
Proof.
  unfold endswith, strip, rstrip. rewrite rev_involutive. apply startswith_lstrip.
Qed.

Lemma slug_char_spec c :
  slug_char c = true
  <-> (isword c = true \/ c = hyphen) /\ isspace c = false /\ lower_char c = c.
Proof.
  split.
  - intros H. split; [|split; [exact (slug_char_not_space c H) | exact (slug_char_lower c H)]].
    unfold slug_char in H. apply andb_prop in H as [H _].
    apply orb_prop in H as [H | H]; [left; exact H | right].
    unfold is_char in H. apply Ascii.eqb_eq in H. symmetry. exact H.
  - intros ([Hw | ->] & Hs & Hl); [|reflexivity].
    unfold slug_char. rewrite Hw, Hl, Ascii.eqb_refl. reflexivity.
Qed.

Lemma slugify_heading_chars x : Forall (fun c => slug_char c = true) (slugify_heading x).
Proof. unfold slugify_heading. apply strip_Forall, slug_body_chars. Qed.

(** X9.  A slug is made of word characters and hyphens only, holds no
    white space and no character that [str.lower] would change, and neither
    begins nor ends with a hyphen. *)
Theorem slug_alphabet (x : str) :
  Forall (fun c => (isword c = true \/ c = hyphen)
                   /\ isspace c = false /\ lower_char c = c)
         (slugify_heading x)
  /\ startswith (lit "-") (slugify_heading x) = false
  /\ endswith (lit "-") (slugify_heading x) = false.
Proof.
  split.
  - eapply Forall_impl; [apply slugify_heading_chars|].
    intros c Hc. apply slug_char_spec, Hc.
  - split; [apply startswith_strip | apply endswith_strip].
Qed.

Lemma extract_anchors_chars fs p (a : str) :
  a ∈ extract_anchors fs p -> Forall (fun c => slug_char c = true) a.
Proof.
  intros H. apply extract_anchors_elem in H as (_ & h & _ & <-).
  apply slugify_heading_chars.
Qed.

Lemma foreign_char_not_anchor fs p (a : str) c :
  c ∈ a -> slug_char c = false -> a ∉ extract_anchors fs p.
Proof.
  intros Hc Hs Hin. apply extract_anchors_chars in Hin.
  rewrite List.Forall_forall in Hin. apply list_elem_of_In in Hc.
  rewrite (Hin c Hc) in Hs. discriminate.
Qed.

(** X10.  Anchors are compared as they are written against slugs, which
    are lower-case: an anchor that holds an upper-case letter, white space,
    or any character other than a word character or a hyphen is found in no
    file.  In a document under the codex root, a reference with such an
    anchor is always reported: as a same-document anchor with "Anchor not
    found in file", and as the anchor part of a reference to an existing
    regular file with "Anchor `#<anchor>` not found in target file". *)
Theorem anchor_with_foreign_character_reported
    (fs : entry) (cr fp sr : path) (content : str)
    (before : list (nat * str)) (n : nat) (target : str) (after : list (nat * str))
    (acc : list Issue) (rel : path) (anchor : str) (c : ascii) :
  reaches fs cr fp content before n target after acc ->
  relative_to fp cr = Ok rel ->
  c ∈ anchor ->
  (isword c = false /\ c <> hyphen) \/ lower_char c <> c ->
  (forall p, anchor ∉ extract_anchors fs p)
  /\ (target = lit "#" ++ anchor ->
      validate_file fs cr fp sr
      = issues_around fs cr fp acc
          [mkIssue (str_of_rel rel) n target (lit "Anchor not found in file")] after)
  /\ (forall file_part,
        cross_document target ->
        split_target target = (file_part, Some anchor) ->
        is_file fs (target_of fp file_part) = true ->
        validate_file fs cr fp sr
        = issues_around fs cr fp acc
            [mkIssue (str_of_rel rel) n target
               (lit "Anchor `#" ++ anchor ++ lit "` not found in target file")] after).
Proof.
  intros Hr Hrel Hc Hbad.
  assert (Hs : slug_char c = false).
  { destruct (slug_char c) eqn:E; [|reflexivity].
    apply slug_char_spec in E as (Hw & _ & Hl).
    destruct Hbad as [[Hnw Hnh] | Hnl]; [|contradiction].
    destruct Hw as [Hw | Hh]; [rewrite Hw in Hnw; discriminate | contradiction]. }
  assert (Hno : forall p, anchor ∉ extract_anchors fs p)
    by (intros p; exact (foreign_char_not_anchor fs p anchor c Hc Hs)).
  split; [exact Hno|]. split.
  - intros ->.
    apply (validate_file_around fs cr fp sr content before n _ after acc _ Hr).
    rewrite check_link_anchor by reflexivity.
    change (drop 1 (lit "#" ++ anchor)) with anchor.
    rewrite bool_decide_eq_true_2 by apply Hno.
    rewrite (new_issue_ok cr fp rel n _ _ Hrel). reflexivity.
  - intros file_part Hcd Hsp Hf.
    apply (validate_file_around fs cr fp sr content before n target after acc _ Hr).
    rewrite (check_link_found fs cr fp n target acc file_part (Some anchor) Hcd Hsp
               (is_file_exists fs _ Hf)).
    rewrite Hf. destruct anchor as [|a anchor]; [inversion Hc|].
    cbn [truthy andb default]. rewrite bool_decide_eq_true_2 by apply Hno.
    rewrite (new_issue_ok cr fp rel n target _ Hrel). reflexivity.
Qed.

Lemma anchor_with_foreign_character_reported_witness :
  heading_texts doc_case = [lit "Intro"]
  /\ validate_file (tree doc_case) codex a_md docs
     = issues_around (tree doc_case) codex a_md []
         [mkIssue (lit "docs/a.md") 2 (lit "#Intro") (lit "Anchor not found in file")]
         [(2, lit "#intro")].
Proof.
  split; [vm_compute; reflexivity|].
  refine (proj1 (proj2 (anchor_with_foreign_character_reported (tree doc_case) codex a_md
                          docs doc_case [] 2 (lit "#Intro") [(2, lit "#intro")] []
                          [lit "docs"; lit "a.md"] (lit "Intro") "I"%char _ _ _ _)) _).
  - repeat split; vm_compute; reflexivity.
  - reflexivity.
  - left.
  - right. vm_compute. discriminate.
  - reflexivity.
Defined.

(** ** The order of paths *)

Section Lex.

Context {A : Type} `{EqDecision A} (lt : A -> A -> bool).

Lemma lex_lt_irrefl l : lex_lt lt l l = false.
Proof.
  induction l as [|x l IH]; [reflexivity|].
  cbn [lex_lt]. rewrite bool_decide_eq_true_2 by reflexivity. exact IH.
Qed.

Hypothesis lt_irrefl : forall x, lt x x = false.
Hypothesis lt_trans : forall x y z, lt x y = true -> lt y z = true -> lt x z = true.
Hypothesis lt_total : forall x y, x <> y -> lt x y = true \/ lt y x = true.

Lemma lex_lt_trans l1 :
  forall l2 l3, lex_lt lt l1 l2 = true -> lex_lt lt l2 l3 = true -> lex_lt lt l1 l3 = true.
Proof.
  induction l1 as [|x l1 IH]; intros [|y l2] [|z l3]; cbn [lex_lt];
    try discriminate; try reflexivity.
  destruct (bool_decide_reflect (x = y)) as [-> | Hxy];
    destruct (bool_decide_reflect (y = z)) as [-> | Hyz].
  - apply IH.
  - intros _ H. exact H.
  - rewrite bool_decide_eq_false_2 by exact Hxy. intros H _. exact H.
  - intros H1 H2. destruct (bool_decide_reflect (x = z)) as [-> | Hxz].
    + pose proof (lt_trans _ _ _ H1 H2) as H. rewrite lt_irrefl in H. discriminate.
    + exact (lt_trans _ _ _ H1 H2).
Qed.

Lemma lex_lt_total l1 :
  forall l2, l1 <> l2 -> lex_lt lt l1 l2 = true \/ lex_lt lt l2 l1 = true.
Proof.
  induction l1 as [|x l1 IH]; intros [|y l2] Hne; cbn [lex_lt].
  - contradiction.
  - left. reflexivity.
  - right. reflexivity.
  - destruct (bool_decide_reflect (x = y)) as [-> | Hxy].
    + rewrite bool_decide_eq_true_2 by reflexivity. apply IH. congruence.
    + rewrite bool_decide_eq_false_2 by congruence. apply lt_total, Hxy.
Qed.

End Lex.

Lemma char_lt_irrefl c : char_lt c c = false.
Proof. apply N.ltb_irrefl. Qed.

Lemma char_lt_trans a b c : char_lt a b = true -> char_lt b c = true -> char_lt a c = true.
Proof. unfold char_lt. rewrite !N.ltb_lt. apply N.lt_trans. Qed.

Lemma char_lt_total a b : a <> b -> char_lt a b = true \/ char_lt b a = true.
Proof.
  intros Hne. unfold char_lt. rewrite !N.ltb_lt. apply N.lt_gt_cases.
  intros H. apply Hne. unfold code in H.
  rewrite <- (ascii_N_embedding a), <- (ascii_N_embedding b), H. reflexivity.
Qed.

Lemma str_lt_irrefl s : str_lt s s = false.
Proof. exact (lex_lt_irrefl char_lt s). Qed.

Lemma str_lt_trans a b c : str_lt a b = true -> str_lt b c = true -> str_lt a c = true.
Proof. exact (lex_lt_trans char_lt char_lt_irrefl char_lt_trans a b c). Qed.

Lemma str_lt_total a b : a <> b -> str_lt a b = true \/ str_lt b a = true.
Proof. exact (lex_lt_total char_lt char_lt_total a b). Qed.

Lemma path_lt_irrefl p : path_lt p p = false.
Proof. exact (lex_lt_irrefl str_lt p). Qed.

Lemma path_lt_trans p q r : path_lt p q = true -> path_lt q r = true -> path_lt p r = true.
Proof. exact (lex_lt_trans str_lt str_lt_irrefl str_lt_trans p q r). Qed.

Lemma path_lt_total p q : p <> q -> path_lt p q = true \/ path_lt q p = true.
Proof. exact (lex_lt_total str_lt str_lt_total p q). Qed.

Lemma path_le_total : Total path_le.
Proof.
  intros p q. unfold path_le.
  destruct (path_lt q p) eqn:E1; [|left; reflexivity].
  destruct (path_lt p q) eqn:E2; [|right; reflexivity].
  pose proof (path_lt_trans _ _ _ E1 E2) as H. rewrite path_lt_irrefl in H. discriminate.
Qed.

Lemma path_le_lt p q : path_le p q -> p <> q -> path_lt p q = true.
Proof.
  unfold path_le. intros Hle Hne.
  destruct (path_lt_total p q Hne) as [H | H]; [exact H | congruence].
Qed.

Lemma path_le_trans : Transitive path_le.
Proof.
  intros p q r Hpq Hqr. unfold path_le.
  destruct (path_lt r p) eqn:E; [|reflexivity].
  destruct (decide (p = q)) as [-> | Hne]; [unfold path_le in Hqr; congruence|].
  pose proof (path_lt_trans _ _ _ E (path_le_lt p q Hpq Hne)) as H.
  unfold path_le in Hqr. congruence.
Qed.

Lemma sorted_strictly (l : list path) :
  StronglySorted path_le l -> NoDup l ->
  StronglySorted (fun p q => path_lt p q = true) l.
Proof.
  induction 1 as [|p l Hs IH Hall]; intros Hnd; constructor.
  - apply IH. apply NoDup_cons in Hnd as [_ Hnd]. exact Hnd.
  - apply NoDup_cons in Hnd as [Hp _].
    rewrite List.Forall_forall in Hall. apply List.Forall_forall. intros q Hq.
    apply path_le_lt; [exact (Hall q Hq)|].
    intros ->. apply Hp. apply list_elem_of_In. exact Hq.
Qed.

(** ** The listing of the markdown files *)

Lemma entry_induction (P : entry -> Prop) :
  (forall content, P (File content)) ->
  (forall children, Forall (fun c => P (snd c)) children -> P (Dir children)) ->
  forall e, P e.
Proof.
  intros HF HD.
  refine (fix IH (e : entry) : P e :=
            match e with
            | File content => HF content
            | Dir children =>
                HD children
                  ((fix all (cs : list (str * entry)) : Forall (fun c => P (snd c)) cs :=
                      match cs with
                      | [] => @List.Forall_nil _ _
                      | (n, c) :: rest => @List.Forall_cons _ _ (n, c) rest (IH c) (all rest)
                      end) children)
            end).
Qed.

Lemma rglob_md_dir children here :
  rglob_md (Dir children) here
  = map (fun c => here ++ [fst c]) (filter (fun c => is_md (fst c) = true) children)
    ++ flat_map (fun c => rglob_md (snd c) (here ++ [fst c])) children.
Proof.
  cbn [rglob_md]. f_equal.
  induction children as [|[n c] cs IH]; [reflexivity|].
  cbn [flat_map fst snd]. rewrite <- IH. reflexivity.
Qed.

Lemma unique_names_dir children :
  unique_names (Dir children)
  = bool_decide (NoDup (map fst children)) && forallb (fun c => unique_names (snd c)) children.
Proof.
  cbn [unique_names]. f_equal.
  induction children as [|[n c] cs IH]; [reflexivity|].
  cbn [forallb snd]. rewrite <- IH. reflexivity.
Qed.

Lemma find_child_elem n c children :
  find_child n children = Some c -> (n, c) ∈ children.
Proof.
  induction children as [|[n' c'] cs IH]; cbn [find_child]; [discriminate|].
  destruct (bool_decide_reflect (n' = n)) as [-> | Hne].
  - intros H; injection H as ->. left.
  - intros H. right. apply IH, H.
Qed.

Lemma find_child_unique n c children :
  NoDup (map fst children) -> (n, c) ∈ children -> find_child n children = Some c.
Proof.
  induction children as [|[n' c'] cs IH]; cbn [find_child map fst]; intros Hnd Hin.
  - inversion Hin.
  - apply NoDup_cons in Hnd as [Hn' Hnd].
    apply elem_of_cons in Hin as [Heq | Hin].
    + injection Heq as <- <-. rewrite bool_decide_eq_true_2 by reflexivity. reflexivity.
    + destruct (bool_decide_reflect (n' = n)) as [-> | Hne]; [|apply IH; assumption].
      exfalso. apply Hn'. apply list_elem_of_fmap. exists (n, c). split; [reflexivity | exact Hin].
Qed.

Lemma name_cons n rel : rel <> [] -> name (n :: rel) = name rel.
Proof. destruct rel; [contradiction | reflexivity]. Qed.

Lemma name_app here rel : rel <> [] -> name (here ++ rel) = name rel.
Proof.
  intros Hne. induction here as [|h here IH]; [reflexivity|].
  rewrite <- IH. apply (name_cons h (here ++ rel)).
  destruct here; [exact Hne | discriminate].
Qed.

(** What [rglob_md] lists: the paths below [here] that lead to an entry
    with a matching name. *)
Lemma rglob_md_elem e :
  unique_names e = true ->
  forall here p,
  p ∈ rglob_md e here
  <-> exists rel, p = here ++ rel /\ rel <> [] /\ is_Some (lookup_path e rel)
                  /\ is_md (name rel) = true.
Proof.
  induction e as [content | children IH] using entry_induction; intros Hu here p.
  - cbn [rglob_md]. split; [intros H; inversion H|].
    intros ([|n rel] & _ & Hne & [x Hx] & _); [contradiction | discriminate].
  - rewrite unique_names_dir in Hu. apply andb_prop in Hu as [Hnd Hall].
    apply bool_decide_eq_true_1 in Hnd. rewrite forallb_forall in Hall.
    rewrite Forall_forall in IH.
    rewrite rglob_md_dir, elem_of_app. split.
    + intros [H | H].
      * apply list_elem_of_fmap in H as ([n c] & -> & H).
        apply list_elem_of_filter in H as [Hmd Hin]. cbn [fst] in *.
        exists [n]. split; [reflexivity|]. split; [discriminate|]. split; [|exact Hmd].
        cbn [lookup_path]. rewrite (find_child_unique n c children Hnd Hin). eexists; reflexivity.
      * apply list_elem_of_In, in_flat_map in H as ([n c] & Hin & H). cbn [fst snd] in H.
        apply list_elem_of_In in Hin, H.
        apply (IH (n, c) Hin) in H as (rel & -> & Hne & Hl & Hmd);
          [|apply (Hall (n, c)), list_elem_of_In, Hin].
        exists (n :: rel). rewrite <- app_assoc. split; [reflexivity|].
        split; [discriminate|]. split.
        -- cbn [lookup_path]. rewrite (find_child_unique n c children Hnd Hin). exact Hl.
        -- rewrite name_cons by exact Hne. exact Hmd.
    + intros ([|n rel] & -> & Hne & Hl & Hmd); [contradiction|].
      cbn [lookup_path] in Hl. destruct (find_child n children) as [c|] eqn:Ec;
        [|destruct Hl; discriminate].
      apply find_child_elem in Ec.
      destruct rel as [|m rel].
      * left. apply list_elem_of_fmap. exists (n, c). split; [reflexivity|].
        apply list_elem_of_filter. split; [exact Hmd | exact Ec].
      * right. apply list_elem_of_In, in_flat_map. exists (n, c).
        split; [apply list_elem_of_In, Ec|]. apply list_elem_of_In. cbn [fst snd].
        apply (IH (n, c) Ec); [apply (Hall (n, c)), list_elem_of_In, Ec|].
        exists (m :: rel). rewrite <- app_assoc. split; [reflexivity|].
        split; [discriminate|]. split; [exact Hl|].
        rewrite <- (name_cons n (m :: rel)) by discriminate. exact Hmd.
Qed.

(** A path that [rglob_md] lists lies below [here]; this needs no
    assumption on the tree. *)
Lemma rglob_md_below e :
  forall here p, p ∈ rglob_md e here -> exists rel, p = here ++ rel /\ rel <> [].
Proof.
  induction e as [content | children IH] using entry_induction; intros here p.
  - cbn [rglob_md]. intros H; inversion H.
  - rewrite Forall_forall in IH. rewrite rglob_md_dir, elem_of_app. intros [H | H].
    + apply list_elem_of_fmap in H as ([n c] & -> & _). exists [n]. split; [reflexivity | discriminate].
    + apply list_elem_of_In, in_flat_map in H as ([n c] & Hin & H). cbn [fst snd] in H.
      apply list_elem_of_In in Hin, H.
      apply (IH (n, c) Hin) in H as (rel & -> & Hne).
      exists (n :: rel). rewrite <- app_assoc. split; [reflexivity | discriminate].
Qed.

Lemma rglob_md_NoDup e :
  unique_names e = true -> forall here, NoDup (rglob_md e here).
Proof.
  induction e as [content | children IH] using entry_induction; intros Hu here.
  - constructor.
  - rewrite unique_names_dir in Hu. apply andb_prop in Hu as [Hnd Hall].
    apply bool_decide_eq_true_1 in Hnd.
    rewrite rglob_md_dir. apply NoDup_app. split; [|split].
    + assert (Hs : map fst (filter (fun c => is_md (fst c) = true) children)
                   `sublist_of` map fst children) by (apply sublist_map, sublist_filter).
      rewrite <- (map_map fst (fun n => here ++ [n])).
      assert (Hinj : Inj eq eq (fun n : str => here ++ [n])).
      { intros a b H. apply app_inv_head in H. injection H as ->. reflexivity. }
      apply (NoDup_fmap_2 _ (Inj0 := Hinj)). exact (sublist_NoDup _ _ Hnd Hs).
    + intros p Hp Hq. apply list_elem_of_fmap in Hp as ([n c] & -> & _).
      apply list_elem_of_In, in_flat_map in Hq as ([n' c'] & _ & Hq). cbn [fst snd] in Hq.
      apply list_elem_of_In, rglob_md_below in Hq as (rel & Heq & Hne).
      rewrite <- app_assoc in Heq. apply app_inv_head in Heq. injection Heq as _ Heq.
      apply Hne. symmetry. exact Heq.
    + clear -Hnd Hall IH. induction children as [|[n c] cs IHcs]; [constructor|].
      cbn [flat_map fst snd]. cbn [map fst] in Hnd. apply NoDup_cons in Hnd as [Hn Hnd].
      cbn [forallb snd] in Hall. apply andb_prop in Hall as [Hc Hall].
      apply Forall_cons in IH as [IHc IH]. cbn [snd] in IHc.
      apply NoDup_app. split; [exact (IHc Hc _)|]. split; [|exact (IHcs IH Hnd Hall)].
      intros p Hp Hq.
      apply rglob_md_below in Hp as (rel & -> & Hne).
      apply list_elem_of_In, in_flat_map in Hq as ([n' c'] & Hin & Hq). cbn [fst snd] in Hq.
      apply list_elem_of_In, rglob_md_below in Hq as (rel' & Heq & _).
      rewrite <- !app_assoc in Heq. apply app_inv_head in Heq. injection Heq as -> _.
      apply Hn. apply list_elem_of_fmap. exists (n', c').
      split; [reflexivity | apply list_elem_of_In, Hin].
Qed.

Lemma lookup_path_app fs p :
  forall e q, lookup_path fs p = Some e -> lookup_path fs (p ++ q) = lookup_path e q.
Proof.
  revert fs. induction p as [|n p IH]; intros fs e q; cbn [lookup_path app].
  - intros H; injection H as ->. reflexivity.
  - destruct fs as [|children]; [discriminate|].
    destruct (find_child n children) as [c|]; [apply IH | discriminate].
Qed.

Lemma lookup_path_prefix fs p :
  forall q, is_Some (lookup_path fs (p ++ q)) -> is_Some (lookup_path fs p).
Proof.
  revert fs. induction p as [|n p IH]; intros fs q; cbn [lookup_path app].
  - intros _. eexists; reflexivity.
  - destruct fs as [|children]; [intros H; exact H|].
    destruct (find_child n children) as [c|]; [apply IH | intros H; exact H].
Qed.

Lemma unique_names_lookup fs p :
  forall e, unique_names fs = true -> lookup_path fs p = Some e -> unique_names e = true.
Proof.
  revert fs. induction p as [|n p IH]; intros fs e Hu; cbn [lookup_path].
  - intros H; injection H as <-. exact Hu.
  - destruct fs as [|children]; [discriminate|].
    destruct (find_child n children) as [c|] eqn:Ec; [|discriminate].
    apply IH. rewrite unique_names_dir in Hu. apply andb_prop in Hu as [_ Hall].
    rewrite forallb_forall in Hall.
    apply (Hall (n, c)), list_elem_of_In, find_child_elem, Ec.
Qed.

Lemma exists_is_Some fs p : exists_ fs p = true <-> is_Some (lookup_path fs p).
Proof.
  unfold exists_. destruct (lookup_path fs p) as [e|]; split; try discriminate.
  - intros _. eexists; reflexivity.
  - reflexivity.
  - intros [x Hx]. discriminate.
Qed.

Lemma md_files_elem fs sd f :
  f ∈ md_files fs sd <-> f ∈ rglob fs sd /\ lit ".git" ∉ f.
Proof.
  unfold md_files. rewrite list_elem_of_filter, merge_sort_Permutation. tauto.
Qed.

Lemma md_files_below fs sd f :
  f ∈ md_files fs sd -> exists rel, f = sd ++ rel /\ rel <> [].
Proof.
  intros H. apply md_files_elem in H as [H _]. unfold rglob in H.
  destruct (lookup_path fs sd) as [e|]; [|inversion H].
  exact (rglob_md_below e sd f H).
Qed.

(** X11.  The files [main] goes through are the paths below the scanned
    directory that exist, have a name ending in [.md] and no part [.git]
    anywhere, directories and files that cannot be read included, each
    once and in ascending order of their parts. *)
Theorem markdown_files_scanned (fs : entry) (scan_dir : path) :
  unique_names fs = true ->
  (forall f,
     f ∈ md_files fs scan_dir
     <-> exists rel, f = scan_dir ++ rel /\ rel <> [] /\ exists_ fs f = true
                     /\ is_md (name f) = true /\ lit ".git" ∉ f)
  /\ StronglySorted (fun p q => path_lt p q = true) (md_files fs scan_dir).
Proof.
  intros Hu. split.
  - intros f. rewrite md_files_elem. unfold rglob. split.
    + intros [H Hg]. destruct (lookup_path fs scan_dir) as [e|] eqn:E; [|inversion H].
      apply (rglob_md_elem e (unique_names_lookup fs scan_dir e Hu E)) in H
        as (rel & -> & Hne & Hl & Hmd).
      exists rel. split; [reflexivity|]. split; [exact Hne|]. split; [|split; [|exact Hg]].
      * apply exists_is_Some. rewrite (lookup_path_app fs scan_dir e rel E). exact Hl.
      * rewrite name_app by exact Hne. exact Hmd.
    + intros (rel & -> & Hne & He & Hmd & Hg). split; [|exact Hg].
      apply exists_is_Some in He.
      destruct (lookup_path_prefix fs scan_dir rel He) as [e E]. rewrite E.
      apply (rglob_md_elem e (unique_names_lookup fs scan_dir e Hu E)).
      exists rel. split; [reflexivity|]. split; [exact Hne|]. split.
      * rewrite <- (lookup_path_app fs scan_dir e rel E). exact He.
      * rewrite <- (name_app scan_dir rel Hne). exact Hmd.
  - unfold md_files. apply sorted_strictly.
    + eapply StronglySorted_sublist; [apply sublist_filter|].
      apply StronglySorted_merge_sort; [apply path_le_trans | apply path_le_total].
    + apply NoDup_filter. rewrite merge_sort_Permutation. unfold rglob.
      destruct (lookup_path fs scan_dir) as [e|] eqn:E; [|constructor].
      apply rglob_md_NoDup. exact (unique_names_lookup fs scan_dir e Hu E).
Qed.

Lemma markdown_files_scanned_witness :
  (forall f,
     f ∈ md_files (tree_git []) codex
     <-> exists rel, f = codex ++ rel /\ rel <> [] /\ exists_ (tree_git []) f = true
                     /\ is_md (name f) = true /\ lit ".git" ∉ f)
  /\ StronglySorted (fun p q => path_lt p q = true) (md_files (tree_git []) codex).
Proof. apply (markdown_files_scanned (tree_git []) codex). vm_compute. reflexivity. Defined.

(** The listing in the sample tree: the directory [z.md] and the file in
    it are listed, the file that cannot be read as well; the file under
    [.git] and the name in upper case are not. *)
Example md_files_sample :
  md_files (tree_git []) codex
  = [ [lit "repo"; lit "a.md"]; [lit "repo"; lit "bad.md"]; [lit "repo"; lit "z.md"];
      [lit "repo"; lit "z.md"; lit ".x.md"] ]
  /\ md_files (tree_git []) [lit "repo"; lit ".git"] = []
  /\ md_files (tree_git []) [lit "repo"; lit "a.md"] = []
  /\ md_files (tree_git []) [lit "nowhere"] = [].
Proof. repeat split; vm_compute; reflexivity. Qed.

(** ** The run of main *)

Lemma print_issues_spec all :
  forall out, print_issues all out = out ++ flat_map issue_lines all.
Proof.
  induction all as [|i all IH]; intros out; cbn [print_issues flat_map].
  - rewrite app_nil_r. reflexivity.
  - rewrite IH. unfold print, issue_lines. rewrite <- !app_assoc. reflexivity.
Qed.

Lemma substring_flat_map {A} (f : A -> str) (x : A) l pre :
  x ∈ l -> substring (f x) (pre ++ flat_map f l).
Proof.
  intros H. apply list_elem_of_split in H as (l1 & l2 & ->).
  rewrite flat_map_app. cbn [flat_map].
  exists (pre ++ flat_map f l1), (flat_map f l2). rewrite <- !app_assoc. reflexivity.
Qed.

Lemma scan_files_ok fs cr sd files :
  forall acc n out m,
  scan_files fs cr sd files acc n = Ok (out, m) ->
  exists iss,
    Forall2 (fun f found => validate_file fs cr f sd = Ok found) files iss
    /\ out = acc ++ concat iss.
Proof.
  induction files as [|f files IH]; intros acc n out m; cbn [scan_files].
  - intros H; injection H as <- <-. exists []. split; [constructor|].
    cbn [concat]. rewrite app_nil_r. reflexivity.
  - destruct (read_text fs f) as [content|] eqn:E.
    + destruct (validate_file fs cr f sd) as [found|e] eqn:V; cbn [bind]; [|discriminate].
      intros H. apply IH in H as (iss & HF & ->).
      exists (found :: iss). split; [constructor; assumption|].
      cbn [concat]. rewrite app_assoc. reflexivity.
    + intros H. apply IH in H as (iss & HF & ->).
      exists ([] :: iss). split; [|reflexivity].
      constructor; [|exact HF]. unfold validate_file. rewrite E. reflexivity.
Qed.

Lemma scan_files_raise fs cr sd files :
  forall acc n e,
  scan_files fs cr sd files acc n = Raise e ->
  exists f, f ∈ files /\ validate_file fs cr f sd = Raise e.
Proof.
  induction files as [|f files IH]; intros acc n e; cbn [scan_files]; [discriminate|].
  destruct (read_text fs f) as [content|] eqn:E.
  - destruct (validate_file fs cr f sd) as [found|e'] eqn:V; cbn [bind].
    + intros H. apply IH in H as (g & Hg & H). exists g. split; [right; exact Hg | exact H].
    + intros H; injection H as ->. exists f. split; [left | exact V].
  - intros H. apply IH in H as (g & Hg & H). exists g. split; [right; exact Hg | exact H].
Qed.

(** A run that ends through [sys.exit] after the scan: the Issues of the
    files in turn, the status and the lines printed for each Issue. *)
Lemma scan_ends fs cr sd o :
  scan fs cr sd = Ok o ->
  exists iss,
    Forall2 (fun f found => validate_file fs cr f sd = Ok found) (md_files fs sd) iss
    /\ status o = (match concat iss with [] => 0 | _ :: _ => 1 end)
    /\ (forall i, i ∈ concat iss -> substring (issue_lines i) (stdout o)).
Proof.
  unfold scan. intros Hscan.
  destruct (scan_files fs cr sd (md_files fs sd) [] 0) as [[all n]|e] eqn:E;
    cbn [bind] in Hscan; [|discriminate].
  apply scan_files_ok in E as (iss & HF & ->). cbn [app] in Hscan.
  exists iss. split; [exact HF|].
  destruct (concat iss) as [|i0 all] eqn:Ec.
  - injection Hscan as <-. split; [reflexivity|]. intros i Hi. inversion Hi.
  - rewrite print_issues_spec in Hscan.
    match type of Hscan with
    | Ok (Exit (?pre ++ ?body) _) = _ =>
        remember pre as header eqn:Eh; remember body as lines eqn:El
    end.
    injection Hscan as <-. cbn [status stdout]. split; [reflexivity|].
    intros i Hi. rewrite El. apply substring_flat_map. exact Hi.
Qed.

Lemma main_missing fs cr argv arg :
  argv !! 1 = Some arg -> exists_ fs (joinpath cr arg) = false ->
  main fs cr argv
  = Ok (Exit (lit "Error: Directory '" ++ arg ++ lit "' not found" ++ [newline]) 1).
Proof.
  destruct argv as [|a0 [|a1 rest]]; [discriminate.. |].
  intros H; injection H as ->. intros He. unfold main. rewrite He. cbn [negb].
  unfold print. cbn [app]. rewrite <- !app_assoc. reflexivity.
Qed.

Lemma main_scan fs cr argv :
  ~ missing_directory fs cr argv -> main fs cr argv = scan fs cr (scan_dir_of cr argv).
Proof.
  intros Hm. destruct argv as [|a0 [|arg rest]]; [reflexivity.. |].
  unfold main, scan_dir_of. destruct (exists_ fs (joinpath cr arg)) eqn:He; [reflexivity|].
  exfalso. apply Hm. exists arg. split; [reflexivity | exact He].
Qed.

Lemma missing_directory_dec fs cr argv :
  missing_directory fs cr argv \/ ~ missing_directory fs cr argv.
Proof.
  destruct argv as [|a0 [|arg rest]].
  - right. intros (a & H & _). discriminate.
  - right. intros (a & H & _). discriminate.
  - destruct (exists_ fs (joinpath cr arg)) eqn:He.
    + right. intros (a & H & Ha). injection H as <-. congruence.
    + left. exists arg. split; [reflexivity | exact He].
Qed.

(** X12.  A run that ends through [sys.exit] has status 0 or 1.  The
    status is 0 exactly when the directory given exists and
    [validate_file] finds no Issue in any of the files listed; a directory
    that does not exist gives the one line of the error message and
    status 1. *)
Theorem main_exit_status (fs : entry) (cr : path) (argv : list str) (o : outcome) :
  plain_argument argv ->
  main fs cr argv = Ok o ->
  (status o = 0 \/ status o = 1)
  /\ (status o = 0
      <-> ~ missing_directory fs cr argv
          /\ Forall (fun f => validate_file fs cr f (scan_dir_of cr argv) = Ok [])
                    (md_files fs (scan_dir_of cr argv)))
  /\ (forall arg, argv !! 1 = Some arg -> exists_ fs (joinpath cr arg) = false ->
        stdout o = lit "Error: Directory '" ++ arg ++ lit "' not found" ++ [newline]).
Proof.
  intros _ Hmain. destruct (missing_directory_dec fs cr argv) as [Hm | Hm].
  - destruct Hm as (arg & Harg & He). pose proof Hmain as Hmain'.
    rewrite (main_missing fs cr argv arg Harg He) in Hmain. injection Hmain as <-.
    cbn [status stdout]. split; [right; reflexivity|]. split.
    + split; [discriminate|]. intros [Hn _]. exfalso. apply Hn.
      exists arg. split; assumption.
    + intros arg' Harg' _. rewrite Harg in Harg'. injection Harg' as <-. reflexivity.
  - rewrite (main_scan fs cr argv Hm) in Hmain.
    apply scan_ends in Hmain as (iss & HF & Hs & _). split; [|split].
    + rewrite Hs. destruct (concat iss); [left | right]; reflexivity.
    + rewrite Hs. split.
      * intros H0. split; [exact Hm|].
        assert (Hc : concat iss = []) by (destruct (concat iss); [reflexivity | discriminate]).
        clear Hs H0. induction HF as [|f found files iss' Hv HF IH]; constructor.
        -- cbn [concat] in Hc. apply app_eq_nil in Hc as [-> _]. exact Hv.
        -- apply IH. cbn [concat] in Hc. apply app_eq_nil in Hc as [_ Hc]. exact Hc.
      * intros [_ Hall].
        assert (Hc : concat iss = []).
        { clear Hs. induction HF as [|f found files iss' Hv HF IH]; [reflexivity|].
          apply Forall_cons in Hall as [Hf Hall]. rewrite Hv in Hf. injection Hf as ->.
          cbn [concat app]. apply IH, Hall. }
        rewrite Hc. reflexivity.
    + intros arg Harg He. exfalso. apply Hm. exists arg. split; assumption.
Qed.

Lemma main_exit_status_witness :
  (status (Exit (lit "Error: Directory 'nope' not found" ++ [newline]) 1) = 0
   \/ status (Exit (lit "Error: Directory 'nope' not found" ++ [newline]) 1) = 1)
  /\ (status (Exit (lit "Error: Directory 'nope' not found" ++ [newline]) 1) = 0
      <-> ~ missing_directory (tree_git []) codex [lit "validate-links.py"; lit "nope"]
          /\ Forall (fun f => validate_file (tree_git []) codex f
                                (scan_dir_of codex [lit "validate-links.py"; lit "nope"])
                              = Ok [])
                    (md_files (tree_git [])
                       (scan_dir_of codex [lit "validate-links.py"; lit "nope"])))
  /\ (forall arg, [lit "validate-links.py"; lit "nope"] !! 1 = Some arg ->
        exists_ (tree_git []) (joinpath codex arg) = false ->
        stdout (Exit (lit "Error: Directory 'nope' not found" ++ [newline]) 1)
        = lit "Error: Directory '" ++ arg ++ lit "' not found" ++ [newline]).
Proof.
  apply (main_exit_status (tree_git []) codex [lit "validate-links.py"; lit "nope"]).
  - intros arg H. injection H as <-. vm_compute. intros Hin.
    repeat (apply elem_of_cons in Hin as [Hin | Hin]; [discriminate|]). inversion Hin.
  - vm_compute. reflexivity.
Defined.

(** X13.  When the directory exists and the run ends through [sys.exit],
    every Issue that [validate_file] finds in a file of the listing is
    printed, with its file, line, link and reason on three lines and an
    empty line after them, and the status is 1. *)
Theorem main_prints_every_issue
    (fs : entry) (cr : path) (argv : list str) (o : outcome)
    (f : path) (issues : list Issue) (i : Issue) :
  plain_argument argv ->
  ~ missing_directory fs cr argv ->
  main fs cr argv = Ok o ->
  f ∈ md_files fs (scan_dir_of cr argv) ->
  validate_file fs cr f (scan_dir_of cr argv) = Ok issues ->
  i ∈ issues ->
  substring (issue_lines i) (stdout o) /\ status o = 1.
Proof.
  intros _ Hm Hmain Hf Hv Hi. rewrite (main_scan fs cr argv Hm) in Hmain.
  apply scan_ends in Hmain as (iss & HF & Hs & Hp).
  assert (Hin : i ∈ concat iss).
  { clear Hs Hp. induction HF as [|g found files iss' Hg HF IH]; [inversion Hf|].
    cbn [concat]. apply elem_of_app. apply elem_of_cons in Hf as [-> | Hf].
    - left. rewrite Hv in Hg. injection Hg as <-. exact Hi.
    - right. apply IH, Hf. }
  split; [apply Hp, Hin|]. rewrite Hs.
  destruct (concat iss); [inversion Hin | reflexivity].
Qed.

Lemma main_prints_every_issue_witness :
  substring
    (issue_lines (mkIssue (lit "z.md/.x.md") 1 (lit "nope.md") (lit "File not found")))
    (lit "
Link Validation Report
==================================================
Files scanned: 4
Internal links checked: 2
Broken links: 1

Broken Links:
--------------------------------------------------
  z.md/.x.md:1
    Link: nope.md
    Issue: File not found

")
  /\ 1 = 1.
Proof.
  apply (main_prints_every_issue (tree_git (lit "[q](nope.md)")) codex
           [lit "validate-links.py"]
           (Exit _ 1)
           [lit "repo"; lit "z.md"; lit ".x.md"]
           [mkIssue (lit "z.md/.x.md") 1 (lit "nope.md") (lit "File not found")]).
  - intros arg H. discriminate.
  - intros (arg & H & _). discriminate.
  - vm_compute. reflexivity.
  - vm_compute. do 3 right. left.
  - vm_compute. reflexivity.
  - left.
Defined.

(** ** The exceptions of a run *)

Lemma relative_to_app cr rel : relative_to (cr ++ rel) cr = Ok rel.
Proof.
  induction cr as [|c cr IH]; cbn [relative_to app]; [destruct rel; reflexivity|].
  rewrite bool_decide_eq_true_2 by reflexivity. exact IH.
Qed.

Lemma check_link_raises fs cr fp n t issues rel e :
  relative_to fp cr = Ok rel ->
  check_link fs cr fp n t issues = Raise e ->
  e = NotADirectoryError
  /\ cross_document t
  /\ is_file fs (parent (target_of fp (fst (split_target t)))) = true.
Proof.
  intros Hrel. unfold check_link.
  destruct (is_external t) eqn:He; [discriminate|].
  destruct (startswith (lit "#") t) eqn:Ha.
  { destruct (bool_decide _); [|discriminate].
    rewrite (new_issue_ok cr fp rel n t _ Hrel). discriminate. }
  destruct (split_target t) as [file_part anchor_part]. cbn [fst].
  fold (target_of fp file_part).
  destruct (negb _).
  { unfold exists_, iterdir, is_file.
    destruct (lookup_path fs (parent (target_of fp file_part))) as [[content|children]|];
      cbn [bind]; try (rewrite (new_issue_ok cr fp rel n t _ Hrel); discriminate).
    intros H; injection H as <-. split; [reflexivity|]. split; [split; assumption | reflexivity]. }
  destruct (truthy anchor_part && is_file fs _); [|discriminate].
  destruct (bool_decide _); [|discriminate].
  rewrite (new_issue_ok cr fp rel n t _ Hrel). discriminate.
Qed.

Lemma scan_links_raises fs cr fp rel refs e :
  relative_to fp cr = Ok rel ->
  forall issues,
  scan_links fs cr fp refs issues = Raise e ->
  e = NotADirectoryError
  /\ exists n t, (n, t) ∈ refs /\ cross_document t
                 /\ is_file fs (parent (target_of fp (fst (split_target t)))) = true.
Proof.
  intros Hrel. induction refs as [|[n t] refs IH]; intros issues; cbn [scan_links];
    [discriminate|].
  destruct (check_link fs cr fp n t issues) as [mid|e'] eqn:E; cbn [bind].
  - intros H. apply IH in H as (-> & n' & t' & Hin & H). split; [reflexivity|].
    exists n', t'. split; [right; exact Hin | exact H].
  - intros H; injection H as ->.
    apply (check_link_raises fs cr fp n t issues rel e Hrel) in E as (-> & H).
    split; [reflexivity|]. exists n, t. split; [left | exact H].
Qed.

Lemma validate_file_raises fs cr fp sr rel e :
  relative_to fp cr = Ok rel ->
  validate_file fs cr fp sr = Raise e ->
  e = NotADirectoryError
  /\ exists n t, (n, t) ∈ references fs fp /\ cross_document t
                 /\ is_file fs (parent (target_of fp (fst (split_target t)))) = true.
Proof.
  intros Hrel. unfold validate_file, references.
  destruct (read_text fs fp) as [content|]; [|discriminate].
  rewrite scan_lines_links. apply (scan_links_raises fs cr fp rel _ e Hrel).
Qed.

Lemma scan_dir_below cr argv :
  relative_argument argv -> exists rel, scan_dir_of cr argv = cr ++ rel.
Proof.
  intros Hr. destruct argv as [|a0 [|arg rest]];
    [exists []; symmetry; apply app_nil_r.. |].
  unfold scan_dir_of, joinpath. rewrite (Hr arg eq_refl). eexists; reflexivity.
Qed.



(** In the sample tree the reference [b.md/c.md] of [a.md] ends the run;
    given as an absolute path, a directory outside the codex root ends it
    with [ValueError] at the first Issue. *)
Example main_raises_sample :
  main (tree doc_through_file) codex [lit "validate-links.py"; lit "docs"]
  = Raise NotADirectoryError
  /\ main (tree doc_missing_file) [lit "repo"; lit "docs"; lit "sub"]
       [lit "validate-links.py"; lit "/repo/docs"]
     = Raise ValueError.
Proof. split; vm_compute; reflexivity. Qed.

(** ** The targets of references *)

Lemma pieces_hit re m :
  forall s prev skip,
  Hit m ∈ pieces re prev s skip ->
  exists prev' pre,
    s = pre ++ m_text m
    /\ match_here re prev' (m_text m) 0 no_captures = Some (m_len m, m_caps m).
Proof.
  induction s as [|c s IH]; intros prev skip; cbn [pieces].
  - intros H; inversion H.
  - assert (Hrest : forall k, Hit m ∈ pieces re (Some c) s k ->
              exists prev' pre,
                c :: s = pre ++ m_text m
                /\ match_here re prev' (m_text m) 0 no_captures = Some (m_len m, m_caps m)).
    { intros k H. apply IH in H as (prev' & pre & -> & Hm).
      exists prev', (c :: pre). split; [reflexivity | exact Hm]. }
    destruct skip as [|k]; [|apply Hrest].
    destruct (match_here re prev (c :: s) 0 no_captures) as [[[|n] cs]|] eqn:E.
    + intros H. apply elem_of_cons in H as [H | H]; [discriminate | exact (Hrest _ H)].
    + intros H. apply elem_of_cons in H as [H | H]; [|exact (Hrest _ H)].
      injection H as ->. exists prev, []. split; [reflexivity | exact E].
    + intros H. apply elem_of_cons in H as [H | H]; [discriminate | exact (Hrest _ H)].
Qed.

Lemma finditer_elem re s m :
  m ∈ finditer re s ->
  exists prev pre,
    s = pre ++ m_text m
    /\ match_here re prev (m_text m) 0 no_captures = Some (m_len m, m_caps m).
Proof.
  unfold finditer. intros H. apply list_elem_of_omap in H as ([c|m'] & Hin & Hm);
    [discriminate|].
  injection Hm as ->. exact (pieces_hit re m s None 0 Hin).
Qed.

Lemma run_take q s : Forall (fun c => q c = true) (take (run q s) s).
Proof.
  induction s as [|c s IH]; [constructor|]. cbn [run].
  destruct (q c) eqn:E; [|constructor]. cbn [take]. constructor; assumption.
Qed.

Lemma run_length q s : run q s <= length s.
Proof.
  induction s as [|c s IH]; [reflexivity|]. cbn [run length].
  destruct (q c); lia.
Qed.

Lemma target_tail_stop prev c s pos cs :
  not_char "]" c = true -> match_here target_tail prev (c :: s) pos cs = None.
Proof.
  rewrite not_char_is_char. intros H. cbn [target_tail match_here].
  destruct (is_char "]" c); [discriminate | reflexivity].
Qed.

Lemma target_end_stop prev c s pos cs :
  not_char ")" c = true -> match_here target_end prev (c :: s) pos cs = None.
Proof.
  rewrite not_char_is_char. intros H. cbn [target_end match_here].
  destruct (is_char ")" c); [discriminate | reflexivity].
Qed.

Lemma link_pattern_head prev c s :
  match_here LINK_PATTERN prev (c :: s) 0 no_captures
  = if is_char "[" c
    then rep (not_char "]") true (match_here target_tail) 0 None (Some c) s 1
           (mark_open 1 1 no_captures)
    else None.
Proof. reflexivity. Qed.

Lemma target_tail_head prev c c2 s pos cs :
  match_here target_tail prev (c :: c2 :: s) pos cs
  = if is_char "]" c
    then if is_char "(" c2
         then rep (not_char ")") true (match_here target_end) 1 None
                (Some c2) s (S (S pos)) (mark_open 2 (S (S pos)) (mark_close 1 pos cs))
         else None
    else None.
Proof. reflexivity. Qed.

(** Where LINK_PATTERN matches, group 2 is the longest run of characters
    other than the closing parenthesis behind the opening one, and that
    run is not empty. *)
Lemma link_pattern_target prev s n cs :
  match_here LINK_PATTERN prev s 0 no_captures = Some (n, cs) ->
  exists pre s2,
    s = pre ++ s2
    /\ 1 <= run (not_char ")") s2
    /\ group (RMatch s n cs) 2 = take (run (not_char ")") s2) s2.
Proof.
  destruct s as [|c s1]; [discriminate|].
  rewrite link_pattern_head. destruct (is_char "[" c); [|discriminate].
  rewrite (rep_greedy_stop (not_char "]") (match_here target_tail))
    by first [ intros ? ? ? ? ? H; exact (target_tail_stop _ _ _ _ _ H)
             | intros; apply match_here_prev; reflexivity ].
  cbn [Nat.leb].
  destruct (drop (run (not_char "]") s1) s1) as [|c1 [|c2 s2]] eqn:D1.
  - discriminate.
  - cbn [target_tail match_here]. destruct (is_char "]" c1); discriminate.
  - rewrite target_tail_head.
    destruct (is_char "]" c1); [|discriminate].
    destruct (is_char "(" c2); [|discriminate].
    rewrite (rep_greedy_stop (not_char ")") (match_here target_end))
      by first [ intros ? ? ? ? ? H; exact (target_end_stop _ _ _ _ _ H)
               | intros; apply match_here_prev; reflexivity ].
    destruct (run (not_char ")") s2) as [|r2] eqn:R2; [discriminate|].
    cbn [Nat.leb].
    destruct (drop (S r2) s2) as [|c3 rest] eqn:D2; [discriminate|].
    cbn [target_end match_here]. destruct (is_char ")" c3); [|discriminate].
    intros H. injection H as <- <-.
    exists (c :: take (run (not_char "]") s1) s1 ++ [c1; c2]), s2.
    split; [|split; [rewrite R2; lia|]].
    + cbn [app]. f_equal. rewrite <- (take_drop (run (not_char "]") s1) s1) at 1.
      rewrite D1, <- app_assoc. reflexivity.
    + unfold group.
      cbn [m_caps m_text mark_close mark_open opened closed assoc Nat.eqb].
      rewrite R2. f_equal; [lia|].
      change (drop (S (S (run (not_char "]") s1))) s1 = s2).
      replace (S (S (run (not_char "]") s1))) with (run (not_char "]") s1 + 2) by lia.
      rewrite <- drop_drop, D1. reflexivity.
Qed.

Lemma split_on_no_sep sep s : Forall (fun w => sep ∉ w) (split_on sep s).
Proof.
  induction s as [|c s IH]; cbn [split_on].
  - constructor; [intros H; inversion H | constructor].
  - destruct (Ascii.eqb sep c) eqn:E.
    + constructor; [intros H; inversion H | exact IH].
    + destruct (split_on sep s) as [|w ws]; constructor.
      * intros H. apply elem_of_cons in H as [-> | H]; [|inversion H].
        rewrite Ascii.eqb_refl in E. discriminate.
      * constructor.
      * apply Forall_cons in IH as [Hw _]. intros H.
        apply elem_of_cons in H as [-> | H]; [|exact (Hw H)].
        rewrite Ascii.eqb_refl in E. discriminate.
      * apply Forall_cons in IH as [_ Hws]. exact Hws.
Qed.

Lemma line_targets_well_formed line t :
  newline ∉ line ->
  t ∈ map (fun m => group m 2) (finditer LINK_PATTERN line) ->
  well_formed_target t.
Proof.
  intros Hnl H. change (map ?f ?l) with (f <$> l) in H.
  apply list_elem_of_fmap in H as (m & -> & Hm).
  apply finditer_elem in Hm as (prev & pre & Hline & Hm).
  destruct m as [text len cs]. cbn [m_text m_len m_caps] in *.
  apply link_pattern_target in Hm as (pre' & s2 & -> & Hr & ->).
  pose proof (run_length (not_char ")") s2) as Hlen.
  pose proof (run_take (not_char ")") s2) as Hall.
  split; [|split].
  - intros H. apply (f_equal length) in H. rewrite length_take in H. cbn [length] in H. lia.
  - intros H. rewrite Forall_forall in Hall. specialize (Hall _ H). discriminate.
  - intros H. apply Hnl. rewrite Hline. apply elem_of_app. right. apply elem_of_app. right.
    exact (elem_of_sublist _ _ _ H (sublist_take _ _)).
Qed.

Lemma doc_links_well_formed content :
  Forall (fun r => well_formed_target (snd r)) (doc_links content).
Proof.
  apply Forall_forall. intros [n t] H. cbn [snd]. unfold doc_links in H.
  apply numbered_links_elem in H as (line & Hl & _ & _ & Ht).
  apply (line_targets_well_formed line t); [|exact Ht].
  pose proof (split_on_no_sep newline content) as Hs. rewrite Forall_forall in Hs.
  apply Hs. exact (list_elem_of_lookup_2 _ _ _ Hl).
Qed.

(** X15.  The target of every reference the resolver goes through is not
    empty, holds no closing parenthesis and no line break: LINK_PATTERN
    ends a target at the first closing parenthesis, and a reference never
    runs over the end of a line.  The same holds for the link of every
    Issue. *)
Theorem reference_targets_well_formed (fs : entry) (fp : path) :
  Forall (fun r => well_formed_target (snd r)) (references fs fp)
  /\ (forall cr sr issues,
        validate_file fs cr fp sr = Ok issues ->
        Forall (fun i => well_formed_target (link i)) issues).
Proof.
  assert (Hrefs : Forall (fun r => well_formed_target (snd r)) (references fs fp)).
  { unfold references. destruct (read_text fs fp) as [content|]; [|constructor].
    apply doc_links_well_formed. }
  split; [exact Hrefs|]. intros cr sr issues H.
  unfold validate_file in H. unfold references in Hrefs.
  destruct (read_text fs fp) as [content|]; [|injection H as <-; constructor].
  rewrite scan_lines_links in H. apply scan_links_sublist in H as (more & -> & Hsub).
  cbn [app]. fold (doc_links content) in Hsub.
  apply Forall_forall. intros i Hi. rewrite Forall_forall in Hrefs.
  apply (Hrefs (issue_ref i)).
  exact (elem_of_sublist _ _ _ (list_elem_of_fmap_2 issue_ref _ _ Hi) Hsub).
Qed.

(** A target with parentheses is cut at the first that closes; a reference
    whose target is empty or goes on to the next line is none. *)
Example cut_targets_sample :
  doc_links (lit "[a](x(1).md) [b]() [c](y
.md)") = [(1, lit "x(1")].
Proof. vm_compute. reflexivity. Qed.
